(** * live-dash-mse-player: manifest model, segment window and controller

    A shallow embedding of [models.js], of the presentation controller of
    [player.js] and of the [SegmentWindow] class, followed by theorems
    about them; the theorems named C1 to C10 are the properties the
    specification states of this code.

    Conventions of the embedding.
    - A JavaScript property that may be [undefined] is an [option].
    - JavaScript numbers are IEEE doubles; times and durations are
      idealised as exact rationals [Q] (compared with [==]), counters as
      [Z]. [NaN], which arithmetic on [undefined] produces, is kept.
    - A call that can raise returns an [outcome]; mutation of [this] is
      explicit state passing; calls into collaborators that are not part of
      the modelled classes (downloader, console, video element) are
      recorded as lists of events. *)

From Stdlib Require Import ZArith QArith Qminmax Lqa Lia.
From stdpp Require Import base option list sorting strings gmap.

Local Open Scope Z_scope.

(* ================================================================== *)
(** * JavaScript values used by the embedding *)
(* ================================================================== *)

Module JS.

(** What a [throw] (explicit, or raised by the runtime) carries. *)
Inductive error : Type :=
| TypeError                (* property read on [undefined] *)
| IndexSizeError           (* [TimeRanges.start(i)] with [i] out of range *)
| Thrown (msg : string).   (* [throw 'msg'] *)

Inductive outcome (A : Type) : Type :=
| Returns (a : A)
| Throws (e : error).
Arguments Returns {A} a.
Arguments Throws {A} e.

Definition bind {A B} (m : outcome A) (k : A -> outcome B) : outcome B :=
  match m with
  | Returns a => k a
  | Throws e => Throws e
  end.

Definition throws {A} (m : outcome A) : Prop :=
  match m with Returns _ => False | Throws _ => True end.

(** [o.field] where [o] may be [undefined]. *)
Definition deref {A} (o : option A) : outcome A :=
  match o with
  | Some a => Returns a
  | None => Throws TypeError
  end.

(** A number: an exact rational, or [NaN]. *)
Inductive number : Type :=
| Num (q : Q)
| NaN.

(** [ToNumber] of a property holding a number or [undefined]. *)
Definition toNumber (o : option Q) : number :=
  match o with
  | Some q => Num q
  | None => NaN
  end.

(** [a - b]. *)
Definition sub (a b : number) : number :=
  match a, b with
  | Num x, Num y => Num (x - y)
  | _, _ => NaN
  end.

(** [a / b]. The modelled code divides by the literal [2] only; a zero
    divisor, which gives an infinity or [NaN], is not told apart. *)
Definition div (a b : number) : number :=
  match a, b with
  | Num x, Num y => if Qeq_bool y 0 then NaN else Num (x / y)
  | _, _ => NaN
  end.

(** [Math.max(a, b)]: [NaN] as soon as one argument is. *)
Definition max (a b : number) : number :=
  match a, b with
  | Num x, Num y => Num (Qmax x y)
  | _, _ => NaN
  end.

(** Truthiness of a number: neither [0] nor [NaN]. *)
Definition truthy (a : number) : bool :=
  match a with
  | Num x => negb (Qeq_bool x 0)
  | NaN => false
  end.

(** [equals a q]: the number [a] is the rational [q] (and not [NaN]). *)
Definition equals (a : number) (q : Q) : Prop :=
  match a with
  | Num x => x == q
  | NaN => False
  end.

(** [a < b] and [a >= b] on rationals, as booleans. *)
Definition ltb (a b : Q) : bool := negb (Qle_bool b a).
Definition geb (a b : Q) : bool := Qle_bool b a.

End JS.

Import JS.

(** [x ← m; k] sequences two calls and stops at the first that raises. *)
#[global] Instance outcome_bind : MBind outcome :=
  fun A B k m => JS.bind m k.

(* ================================================================== *)
(** * models.js *)
(* ================================================================== *)

(** ** The [Model] base class

    [Model] itself is not among the sources; its methods are used by every
    class of [models.js]. *)

Module Model.

(** Modelled from the spec: [Model.inheritFrom] and [Model.inherit] are
    missing. "Missing attributes are filled [...] first non-absent wins,
    never overwritten": an attribute that is absent on the node takes the
    ancestor's value, a present one is kept. *)
Definition inheritAttr {A} (own inherited : option A) : option A :=
  match own with
  | Some v => Some v
  | None => inherited
  end.

End Model.

(** ** SegmentTemplate *)

Module SegmentTemplate.

(** The attributes of [attributeDefinitions]. The same record describes the
    attributes declared in the document (what [attrs] parses) and the
    properties of the constructed object. *)
Record t : Type := mk {
  bitstreamSwitching : option string;
  initialization : option string;
  index : option string;
  media : option string;
  startNumber : option Z;
  timescale : option Z;
  duration : option Z;
  presentationTimeOffset : option Z
}.

Definition empty : t := mk None None None None None None None None.

(** [if (this.x == undefined) this.x = d] for the three attributes with a
    built-in default. *)
Definition fillDefaults (s : t) : t :=
  mk (bitstreamSwitching s) (initialization s) (index s) (media s)
     (Some (default 1 (startNumber s)))
     (Some (default 1 (timescale s)))
     (duration s)
     (Some (default 0 (presentationTimeOffset s))).

(** Modelled from the spec: [this.inheritFrom(Type, 'segmentTemplate',
    attrNames)], with [attrNames] all eight attribute names. [other] is the
    [segmentTemplate] property of the nearest ancestor of the given type,
    absent when there is no such ancestor or it has no template (yet). *)
Definition inheritFrom (other : option t) (s : t) : t :=
  match other with
  | None => s
  | Some o =>
      mk (Model.inheritAttr (bitstreamSwitching s) (bitstreamSwitching o))
         (Model.inheritAttr (initialization s) (initialization o))
         (Model.inheritAttr (index s) (index o))
         (Model.inheritAttr (media s) (media o))
         (Model.inheritAttr (startNumber s) (startNumber o))
         (Model.inheritAttr (timescale s) (timescale o))
         (Model.inheritAttr (duration s) (duration o))
         (Model.inheritAttr (presentationTimeOffset s)
                            (presentationTimeOffset o))
  end.

(** [SegmentTemplate.setup]. [declared] holds the parsed attributes;
    [ofAdaptationSet] and [ofPeriod] are the templates of the ancestor
    AdaptationSet and Period at the time [setup] runs. The statements are
    in the order of the source: defaults, then the AdaptationSet's
    template, then the Period's. (The [SegmentTimeline] child carries no
    attribute and is left out.) *)
Definition setup (declared : t) (ofAdaptationSet ofPeriod : option t) : t :=
  inheritFrom ofPeriod (inheritFrom ofAdaptationSet (fillDefaults declared)).

(** The value the spec gives to an attribute: the first non-absent value
    among the template's own, the AdaptationSet-level and the
    Period-level one. *)
Definition firstDeclared {A} (own ofAdaptationSet ofPeriod : option A)
  : option A :=
  Model.inheritAttr (Model.inheritAttr own ofAdaptationSet) ofPeriod.

End SegmentTemplate.

(** ** SegmentTemplate objects

    A constructed [SegmentTemplate]: besides the eight attributes, the kind
    of its parent and what [postSetup] stores on it. *)

Module SegmentTemplateObject.

(** [this.parent], as far as [postSetup] asks: which class it is an
    instance of. *)
Inductive parentType : Type :=
| inPeriod
| inAdaptationSet
| inRepresentation.

(** The [TemplateString] class is not among the sources; [postSetup] reads
    two properties of the objects it constructs. *)
Record templateString : Type := mkTemplateString {
  ts_invalid : bool;            (* [.invalid] *)
  processed : option string     (* [.processed] *)
}.

(** What the [index] and [media] properties hold: the string [attrs]
    parsed (or [undefined]), until [postSetup] puts a [TemplateString] in
    its place. *)
Inductive property : Type :=
| text (s : option string)
| compiled (ts : templateString).

Record t : Type := mk {
  parent : parentType;
  bitstreamSwitching : option string;
  initialization : option string;
  index : property;
  media : property;
  startNumber : option Z;
  timescale : option Z;
  duration : option Z;
  presentationTimeOffset : option Z;
  index_str : property;         (* [undefined] until [postSetup] assigns it *)
  media_str : property;
  invalid : bool                (* [this.invalid], [undefined] counted as false *)
}.

(** The object as [setup] leaves it: the eight attributes, nothing else
    assigned. *)
Definition ofAttributes (parent : parentType) (s : SegmentTemplate.t) : t :=
  mk parent
     (SegmentTemplate.bitstreamSwitching s) (SegmentTemplate.initialization s)
     (text (SegmentTemplate.index s)) (text (SegmentTemplate.media s))
     (SegmentTemplate.startNumber s) (SegmentTemplate.timescale s)
     (SegmentTemplate.duration s) (SegmentTemplate.presentationTimeOffset s)
     (text None) (text None) false.

Section PostSetup.

(** [new TemplateString(name, this)]: what the missing class makes of the
    attribute name and of the template as it is at the time of the call
    (through its parent the template also reaches the Representation). A
    string it cannot compile is reported by [invalid]; the constructor is
    taken not to raise. *)
Variable compile : string -> t -> templateString.

(** [postSetup()], statement by statement. The second component tells
    whether [this.parent.invalid = true] has run. *)
Definition postSetup (this : t) : t * bool :=
  match parent this with
  | inRepresentation =>
      let saved :=
        mk (parent this) (bitstreamSwitching this) (initialization this)
           (index this) (media this)
           (startNumber this) (timescale this) (duration this)
           (presentationTimeOffset this)
           (index this) (media this) (invalid this) in
      let bitstreamSwitching' := compile "bitstreamSwitching" saved in
      let initialization' := compile "initialization" saved in
      let index' := compile "index" saved in
      let indexed :=
        mk (parent saved) (bitstreamSwitching saved) (initialization saved)
           (compiled index') (media saved)
           (startNumber saved) (timescale saved) (duration saved)
           (presentationTimeOffset saved)
           (index_str saved) (media_str saved) (invalid saved) in
      let media' := compile "media" indexed in
      let anyInvalid :=
        ts_invalid bitstreamSwitching' || ts_invalid initialization'
        || ts_invalid index' || ts_invalid media' in
      (mk (parent this) (processed bitstreamSwitching') (processed initialization')
          (compiled index') (compiled media')
          (startNumber this) (timescale this) (duration this)
          (presentationTimeOffset this)
          (index this) (media this)
          (if anyInvalid then true else invalid this),
       anyInvalid)
  | _ => (this, false)
  end.

(** Modelled from the spec: [new SegmentTemplate(source, parent)]. The
    [Model] constructor is not among the sources; a "typed node whose
    declared attributes are parsed [...] and whose inheritance rules are
    then applied". It is taken to run [setup] on the attributes of
    [source], a document node or, for the copy a Representation makes, an
    existing template, with the ancestry of the new parent, and then
    [postSetup], the one other hook [SegmentTemplate] defines. *)
Definition new (source : SegmentTemplate.t) (parent : parentType)
    (ofAdaptationSet ofPeriod : option SegmentTemplate.t) : t * bool :=
  postSetup
    (ofAttributes parent (SegmentTemplate.setup source ofAdaptationSet ofPeriod)).

End PostSetup.

End SegmentTemplateObject.

(** ** Representation *)

Module Representation.

(** The properties of a constructed Representation that the modelled code
    reads. *)
Record t : Type := mk {
  id : option string;
  bandwidth : option Z;
  mimeType : option string;
  codecs : option string;
  segmentTemplate : SegmentTemplate.t
}.

(** What [setup] sees of an ancestor: its [segmentTemplate] property. *)
Record ancestor : Type := mkAncestor {
  ancestorTemplate : option SegmentTemplate.t
}.

Definition noTemplate : string :=
  "Representation must currently have a SegmentTemplate or one must appear in ancestry".

(** The choice of [defaultTemplate] in [setup]:
    [adaptationSet && adaptationSet.segmentTemplate], else
    [period && period.segmentTemplate], else [null]. *)
Definition defaultTemplate (adaptationSet period : option ancestor)
  : option SegmentTemplate.t :=
  match adaptationSet ≫= ancestorTemplate with
  | Some tpl => Some tpl
  | None => period ≫= ancestorTemplate
  end.

(** The templates a Representation meets in a document: the Period's
    template is constructed first and sees no ancestor template, the
    AdaptationSet's is constructed next and sees the Period's (its own
    AdaptationSet has no template yet), the Representation's own sees
    both. Arguments are the declared attributes of the
    [SegmentTemplate] elements, where present. *)
Definition periodTemplate (declared : option SegmentTemplate.t)
  : option SegmentTemplate.t :=
  (fun d => SegmentTemplate.setup d None None) <$> declared.

Definition adaptationSetTemplate (declared ofPeriod : option SegmentTemplate.t)
  : option SegmentTemplate.t :=
  (fun d => SegmentTemplate.setup d None (periodTemplate ofPeriod)) <$> declared.

(** What the calls [setup] makes before it looks for a template come to,
    in the order it makes them; each of them may raise.

    Modelled from the spec: [Model.attrs], [Model.init] and [Model.initAll]
    are missing. "Parsing an attribute with a value that fails its declared
    type conversion is a construction error", for the Representation's own
    attributes and for those of the children it constructs. *)
Record node : Type := mkNode {
  attrs : outcome unit;               (* [this.attrs(commonAttributes, {...})] *)
  subRepresentations : outcome unit;  (* [this.initAll(SubRepresentation)] *)
  declaredTemplate : outcome (option SegmentTemplate.t);
                                      (* the attributes [init(SegmentTemplate)]
                                         parses, when there is such a child *)
  baseURL : outcome unit              (* [this.init(BaseURL)] *)
}.

(** What [setup] leaves on the Representation, as far as templates go:
    [this.segmentTemplate], and [this.invalid] as [postSetup] of the
    template set it. *)
Record resolved : Type := mkResolved {
  template : SegmentTemplateObject.t;
  invalid : bool
}.

Section Setup.

Variable compile
  : string -> SegmentTemplateObject.t -> SegmentTemplateObject.templateString.

(** [new SegmentTemplate(source, this)] within [setup]. *)
Definition construct (source : SegmentTemplate.t)
    (adaptationSet period : option ancestor) : resolved :=
  let '(tpl, bad) :=
    SegmentTemplateObject.new compile source SegmentTemplateObject.inRepresentation
      (adaptationSet ≫= ancestorTemplate) (period ≫= ancestorTemplate) in
  mkResolved tpl bad.

(** [Representation.setup]. ([this.inherit(AdaptationSet, ...)] fills
    absent common attributes and touches no template; it is left out.) *)
Definition setup (n : node) (adaptationSet period : option ancestor)
  : outcome resolved :=
  _ ← attrs n;
  _ ← subRepresentations n;
  declared ← declaredTemplate n;
  let own := (fun d => construct d adaptationSet period) <$> declared in
  _ ← baseURL n;
  match own with
  | Some tpl => Returns tpl
  | None =>
      match defaultTemplate adaptationSet period with
      | None => Throws (Thrown noTemplate)
      | Some d => Returns (construct d adaptationSet period)
      end
  end.

End Setup.

End Representation.

(** ** AdaptationSet *)

Module AdaptationSet.

(** The static property [AdaptationSet._nextIndex]: [undefined] until the
    first call of [nextIndex]. It is process-wide state, threaded
    explicitly. *)
Definition counter : Type := option Z.

Definition initialCounter : counter := None.

(** [static nextIndex()]. *)
Definition nextIndex (c : counter) : Z * counter :=
  let n := default 0 c in
  (n + 1, Some (n + 1)).

Record t : Type := mk {
  index : Z;
  mimeType : option string;
  segmentTemplate : option SegmentTemplate.t;
  representations : list Representation.t
}.

(** What [setup] works from: the declared [mimeType], and the children
    that [init] and [initAll] construct (none of them touches the
    counter). *)
Record input : Type := mkInput {
  declaredMimeType : option string;
  template : option SegmentTemplate.t;
  children : list Representation.t
}.

(** The end of [setup]:
    [if (this.mimeType == undefined)
       this.mimeType = this.representations[0].mimeType]. *)
Definition resolveMimeType (declared : option string)
    (representations : list Representation.t) : outcome (option string) :=
  match declared with
  | Some m => Returns (Some m)
  | None =>
      r ← deref (representations !! 0%nat);
      Returns (Representation.mimeType r)
  end.

(** [AdaptationSet.setup] from the call of [nextIndex] on, for a node
    whose attributes have been parsed: a failure later in [setup] does not
    give the index back. ([AdaptationSetNode.setup] below starts at the
    parsing of the attributes.) *)
Definition setup (i : input) (c : counter) : outcome t * counter :=
  let '(idx, c') := nextIndex c in
  (m ← resolveMimeType (declaredMimeType i) (children i);
   Returns (mk idx m (template i) (children i)),
   c').

(** Constructing AdaptationSets one after the other, as [initAll] does
    within a Period and successive Periods and manifests do within one
    process. *)
Fixpoint setupAll (inputs : list input) (c : counter)
  : list (outcome t) * counter :=
  match inputs with
  | [] => ([], c)
  | i :: rest =>
      let '(r, c1) := setup i c in
      let '(rs, c2) := setupAll rest c1 in
      (r :: rs, c2)
  end.

(** The indices of the AdaptationSets that were constructed, in
    construction order. *)
Fixpoint indices (rs : list (outcome t)) : list Z :=
  match rs with
  | [] => []
  | Returns a :: rest => index a :: indices rest
  | Throws _ :: rest => indices rest
  end.

End AdaptationSet.

(** ** Manifest *)

Module Manifest.

(** The properties of a constructed manifest read by the player; durations
    are in milliseconds. *)
Record t : Type := mk {
  dynamic : bool;
  suggestedPresentationDelay : Q;
  timeShiftBufferDepth : option Q;
  minimumUpdatePeriod : option Q;
  minBufferTime : Q;
  mediaPresentationDuration : option Q
}.

(** The parsed attributes. *)
Record declared : Type := mkDeclared {
  d_type : option string;
  d_suggestedPresentationDelay : option Q;
  d_timeShiftBufferDepth : option Q;
  d_minimumUpdatePeriod : option Q;
  d_minBufferTime : option Q;
  d_mediaPresentationDuration : option Q
}.

Definition DEFAULT_MIN_BUFFER_TIME : Q := 30 * 1000.

(** [Manifest.setup], without the children. *)
Definition setup (d : declared) : t :=
  mk (bool_decide (d_type d = Some "dynamic"%string))
     (default 0%Q (d_suggestedPresentationDelay d))
     (d_timeShiftBufferDepth d)
     (d_minimumUpdatePeriod d)
     (default DEFAULT_MIN_BUFFER_TIME (d_minBufferTime d))
     (d_mediaPresentationDuration d).

End Manifest.

(* ================================================================== *)
(** * player.js: the presentation controller *)
(* ================================================================== *)

(** Calls the modelled classes make into their collaborators, in the order
    they are made. *)
Inductive call : Type :=
| getMPD (url : string)                    (* [downloader.getMPD(url, processor)] *)
| getMedia (url : string) (segment : nat)  (* [downloader.getMedia(url, segment)],
                                              the segment named by its place in the window *)
| emit (eventType : string)                (* [player.emit(eventType)] *)
| appendManifest                           (* [presentation.appendManifest(manifest)] *)
| downloadNextSegmentOf (source : nat)     (* [source.timeline.currentPeriod.downloadNextSegment()] *)
| consoleWarn (msg : string)
| consoleError (msg : string).

(** The video element, as far as [tick] reads and writes it: [buffered] is
    the list of buffered ranges, each a start and an end. *)
Module Video.

Record t : Type := mk {
  currentTime : Q;
  buffered : list (Q * Q);
  paused : bool
}.

(** [video.buffered.start(0)]: the platform raises when there is no
    range. *)
Definition bufferedStart0 (v : t) : outcome Q :=
  match buffered v with
  | [] => Throws IndexSizeError
  | (s, _) :: _ => Returns s
  end.

Definition setCurrentTime (x : Q) (v : t) : t := mk x (buffered v) (paused v).
Definition play (v : t) : t := mk (currentTime v) (buffered v) false.

End Video.

Module PresentationController.

Inductive state : Type :=
| uninitialised
| firstMPDLoaded
| sourceBuffersCreated
| sourcesInitialised
| bufferAvailable.

#[global] Instance state_eq_dec : EqDecision state.
Proof. solve_decision. Defined.

(** The numbers the source gives to the states. *)
Definition code (s : state) : Z :=
  match s with
  | uninitialised => 0
  | firstMPDLoaded => 1
  | sourceBuffersCreated => 2
  | sourcesInitialised => 3
  | bufferAvailable => 4
  end.

Record t : Type := mk {
  current : state;                 (* [this.state] *)
  loadingManifest : bool;
  manifestLoaded : option Q;       (* [performance.now()] at the last load *)
  url : string                     (* [this.options.url] *)
}.

(** The constructor. *)
Definition new (u : string) : t := mk uninitialised false None u.

Definition setState (newState : state) (c : t) : t * list call :=
  if bool_decide (current c = newState) then (c, [])
  else (mk newState (loadingManifest c) (manifestLoaded c) (url c),
        [emit "stateChanged"]).

Definition loadManifest (c : t) : t * list call :=
  if loadingManifest c then (c, [])
  else (mk (current c) true (manifestLoaded c) (url c), [getMPD (url c)]).

(** [loadedManifest(manifest)], called with the time [now] read from
    [performance.now()]. *)
Definition loadedManifest (now : Q) (c : t) : t * list call :=
  let '(c1, e1) :=
    if bool_decide (current c = uninitialised)
    then setState firstMPDLoaded c else (c, []) in
  (mk (current c1) false (Some now) (url c1), e1 ++ [appendManifest]).

(** The first block of [tick]: reload a dynamic manifest whose
    [minimumUpdatePeriod] has elapsed. A comparison with [NaN] (no load
    recorded yet) is false. *)
Definition reloadIfDue (m : Manifest.t) (now : Q) (c : t) : t * list call :=
  if Manifest.dynamic m && truthy (toNumber (Manifest.minimumUpdatePeriod m)) then
    match manifestLoaded c, Manifest.minimumUpdatePeriod m with
    | Some loaded, Some period =>
        if geb (now - loaded) period then loadManifest c else (c, [])
    | _, _ => (c, [])
    end
  else (c, []).

(** [remaining] in [tick]. *)
Definition remaining (v : Video.t) : Q :=
  match Video.buffered v with
  | [] => 0
  | (_, last) :: _ => last - Video.currentTime v
  end.

(** [minBuffer] in [tick]: twice [minBufferTime], in seconds. *)
Definition minBuffer (m : Manifest.t) : Q :=
  (Manifest.minBufferTime m / 1000) * 2.

(** What a [tick] leaves behind: the controller, the video element, the calls
    made, and the error if it ended by raising. *)
Record ticked : Type := mkTicked {
  controller : t;
  video : Video.t;
  calls : list call;
  raised : option error
}.

(** [tick()]; [sources] names the elements of [presentation.sources]. The
    calls into their windows are recorded here in the order they are made;
    [Buffering.tick] below runs them. *)
Definition tick (m : Manifest.t) (now : Q) (sources : list nat)
    (v : Video.t) (c : t) : ticked :=
  let '(c1, e1) := reloadIfDue m now c in
  if ltb (remaining v) (minBuffer m) then
    mkTicked c1 v (e1 ++ map downloadNextSegmentOf sources) None
  else if bool_decide (current c1 = sourcesInitialised) then
    let '(c2, e2) := setState bufferAvailable c1 in
    match Video.bufferedStart0 v with
    | Throws e => mkTicked c2 v (e1 ++ e2) (Some e)
    | Returns s =>
        mkTicked c2 (Video.play (Video.setCurrentTime s v)) (e1 ++ e2) None
    end
  else mkTicked c1 v e1 None.

End PresentationController.

(* ================================================================== *)
(** * Segments and the segment window *)
(* ================================================================== *)

Module Segment.

(** Modelled from the spec: the [Segment] class is missing. Its states are
    "pending → downloading → {downloaded, errored}"; the window compares
    them as numbers ([state >= Segment.downloaded] is "downloaded (or
    errored)"). *)
Inductive state : Type :=
| pending
| downloading
| downloaded
| errored.

#[global] Instance state_eq_dec : EqDecision state.
Proof. solve_decision. Defined.

Definition code (s : state) : Z :=
  match s with
  | pending => 0
  | downloading => 1
  | downloaded => 2
  | errored => 3
  end.

Record t : Type := mk {
  start : Q;
  duration : Q;
  number : Z;
  state_ : state;
  cachedUrl : option string
}.

(** Modelled from the spec: "[end = start+duration]". *)
Definition end_ (s : t) : Q := start s + duration s.

(** Modelled from the spec: "Segments are value-equal when start and
    duration match." *)
Definition equal (a b : t) : bool :=
  Qeq_bool (start a) (start b) && Qeq_bool (duration a) (duration b).

Definition setState (st : state) (s : t) : t :=
  mk (start s) (duration s) (number s) st (cachedUrl s).

(** Modelled from the spec: [segment.url(true)], "the URL is
    memoized/locked on first resolution". [resolve] builds the address
    from the template of the representation selected at the time. *)
Definition url (resolve : t -> string) (s : t) : string * t :=
  match cachedUrl s with
  | Some u => (u, s)
  | None =>
      let u := resolve s in
      (u, mk (start s) (duration s) (number s) (state_ s) (Some u))
  end.

(** The edges of the state diagram, and staying put. *)
Inductive moves : state -> state -> Prop :=
| moves_refl st : moves st st
| moves_start : moves pending downloading
| moves_done : moves downloading downloaded
| moves_failed : moves downloading errored.

End Segment.

Module SegmentWindow.

(** A range of content of the timeline, as [source.contentAt] returns it. *)
Record content : Type := mkContent {
  repeatSegment : bool;
  contentSegmentAt : number -> option Segment.t;
  contentSegments : list Segment.t
}.

(** The methods of [Source] the window calls; the class is missing, the
    window is modelled for every source. *)
Record source : Type := mkSource {
  segmentAt : Q -> option Segment.t;
  contentAt : Q -> option content;
  segmentsInRange : number -> number -> list Segment.t
}.

(** What the window reads of the presentation at the time of a call. *)
Record presentation : Type := mkPresentation {
  liveEdge : Q;                   (* [presentation.liveEdge()] *)
  endTime : number;               (* [presentation.endTime] *)
  timelineDuration : option Q;    (* [presentation.timeline.duration] *)
  manifest : Manifest.t
}.

Record t : Type := mk {
  segments : list Segment.t;
  playIndex : option nat;
  loadIndex : option nat;
  nextRangeStart : option Q
}.

(** The constructor. *)
Definition new : t := mk [] None None None.

Definition unknownDuration : string :=
  "cannot play static presentation with unknown duration".

Definition updateStatic (src : source) (p : presentation) (w : t) : outcome t :=
  match timelineDuration p with
  | None => Throws (Thrown unknownDuration)
  | Some d =>
      Returns (mk (segmentsInRange src (Num 0) (Num d))
                  (playIndex w) (Some 0%nat) (nextRangeStart w))
  end.

(** The search for the edge segment on the first update, when
    [source.segmentAt(liveEdge)] found none. *)
Definition fallbackEdgeSegment (src : source) (p : presentation)
  : outcome Segment.t :=
  c ← deref (contentAt src (liveEdge p));
  if repeatSegment c then deref (contentSegmentAt c (endTime p))
  else deref (last (contentSegments c)).

(** The start chosen on the first update from the start of the edge
    segment: lines 62 to 80 of the source, statement by statement. *)
Definition firstRangeStart (edgeStart : Q) (m : Manifest.t) : number :=
  let rangeStart := Num edgeStart in
  let timeshift := toNumber (Manifest.timeShiftBufferDepth m) in
  let minStart := sub rangeStart timeshift in
  let rangeStart :=
    if truthy (Num (Manifest.suggestedPresentationDelay m))
    then sub rangeStart (Num (Manifest.suggestedPresentationDelay m))
    else sub rangeStart (div timeshift (Num 2)) in
  let rangeStart := max rangeStart minStart in
  max rangeStart (Num 0).

(** The step back from the edge segment that [firstRangeStart] takes: the
    suggested delay when the manifest holds a non-zero one, else half the
    timeshift depth. *)
Definition stepBack (m : Manifest.t) (timeshift : Q) : Q :=
  if Qeq_bool (Manifest.suggestedPresentationDelay m) 0
  then timeshift / 2
  else Manifest.suggestedPresentationDelay m.

(** [rangeStart] as [updateDynamic] has it when it calls
    [segmentsInRange]. *)
Definition rangeStart (src : source) (p : presentation) (w : t)
  : outcome number :=
  match nextRangeStart w with
  | Some r => Returns (Num r)
  | None =>
      edge ← match segmentAt src (liveEdge p) with
             | Some e => Returns e
             | None => fallbackEdgeSegment src p
             end;
      Returns (firstRangeStart (Segment.start edge) (manifest p))
  end.

Definition noSegments : string := "no segments produced over this range".
Definition discontiguous : string := "discontiguous segments".
Definition queueRunEmpty : string :=
  "queue has run empty, last segment is downloaded".

(** The second half of [updateDynamic], from the test of
    [newSegments.length] on. Nothing is assigned before the last read that
    can raise. *)
Definition merge (newSegments : list Segment.t) (w : t)
  : outcome (t * list call) :=
  match newSegments with
  | [] => Returns (w, [consoleWarn noSegments])
  | first :: rest =>
      '(all, added, msgs) ←
        match last (segments w) with
        | Some lastSegment =>
            let added :=
              if Segment.equal lastSegment first then rest else newSegments in
            first' ← deref (head added);
            let msgs :=
              if Qeq_bool (Segment.end_ lastSegment) (Segment.start first')
              then [] else [consoleError discontiguous] in
            Returns (segments w ++ added, added, msgs)
        | None => Returns (newSegments, newSegments, [])
        end;
      lastAdded ← deref (last added);
      Returns (mk all (playIndex w)
                  (Some (default 0%nat (loadIndex w)))
                  (Some (Segment.end_ lastAdded)),
               msgs)
  end.

Definition updateDynamic (src : source) (p : presentation) (w : t)
  : outcome (t * list call) :=
  from ← rangeStart src p w;
  merge (segmentsInRange src from (Num (liveEdge p))) w.

(** What [downloadNextSegment] asks of segments besides their state:
    [available] is [segment.available()] at the time of the call (the
    method is missing), [resolve] builds a segment's address. *)
Record environment : Type := mkEnvironment {
  available : Segment.t -> bool;
  resolve : Segment.t -> string
}.

Definition setSegments (l : list Segment.t) (w : t) : t :=
  mk l (playIndex w) (loadIndex w) (nextRangeStart w).

Definition setLoadIndex (i : nat) (w : t) : t :=
  mk (segments w) (playIndex w) (Some i) (nextRangeStart w).

(** The end of [downloadNextSegment], from the test of
    [segment.available()] on, for the segment at place [i]. *)
Definition startDownload (env : environment) (i : nat) (segment : Segment.t)
    (w : t) : t * list call :=
  if negb (available env segment) then (w, [])
  else
    let '(u, segment') :=
      Segment.url (resolve env) (Segment.setState Segment.downloading segment) in
    (setSegments (<[i := segment']> (segments w)) w, [getMedia u i]).

(** [downloadNextSegment()]. The controller is shared with the other
    windows: its flag is read and [loadManifest] may set it. The warning
    that precedes the reload is recorded by its fixed text, without the
    time and the content type printed in front of it. *)
Definition downloadNextSegment (env : environment) (p : presentation)
    (c : PresentationController.t) (w : t)
  : outcome (PresentationController.t * t * list call) :=
  match loadIndex w with
  | None => Returns (c, w, [])
  | Some i =>
      segment ← deref (segments w !! i);
      if bool_decide (Segment.state_ segment = Segment.downloading) then
        Returns (c, w, [])
      else if bool_decide
                (Segment.code Segment.downloaded
                 <= Segment.code (Segment.state_ segment)) then
        if bool_decide ((i + 1)%nat = length (segments w)) then
          if truthy (toNumber (timelineDuration p))
             && geb (Segment.end_ segment) (default 0%Q (timelineDuration p))
          then Returns (c, w, [])
          else if PresentationController.loadingManifest c then
            Returns (c, w, [])
          else
            let '(c', e) := PresentationController.loadManifest c in
            Returns (c', w, consoleWarn queueRunEmpty :: e)
        else
          let w1 := setLoadIndex (i + 1) w in
          segment ← deref (segments w1 !! (i + 1)%nat);
          let '(w2, e) := startDownload env (i + 1) segment w1 in
          Returns (c, w2, e)
      else
        let '(w2, e) := startDownload env i segment w in
        Returns (c, w2, e)
  end.

End SegmentWindow.

(* ================================================================== *)
(** * Runs of the controller *)
(* ================================================================== *)

(** The controller together with the number of manifest requests handed to
    the downloader and not yet answered. The steps are the places of the
    sources that write the controller: [loadManifest] (called by the
    player when the media source opens, by [tick] and by
    [downloadNextSegment]), [loadedManifest], and [setState]. *)
Module ManifestLoading.

Fixpoint manifestRequests (e : list call) : nat :=
  match e with
  | [] => 0
  | getMPD _ :: rest => S (manifestRequests rest)
  | _ :: rest => manifestRequests rest
  end.

Record world : Type := mk {
  controller : PresentationController.t;
  inFlight : nat
}.

Inductive label : Type :=
| callLoadManifest
| deliverManifest (now : Q)
| failRequest
| runTick (m : Manifest.t) (now : Q) (sources : list nat) (v : Video.t)
| changeState (newState : PresentationController.state)
| runDownload (env : SegmentWindow.environment)
              (p : SegmentWindow.presentation) (w : SegmentWindow.t).

Inductive step : label -> world -> world -> Prop :=
| step_load c n :
    step callLoadManifest (mk c n)
      (mk (PresentationController.loadManifest c).1
          (n + manifestRequests (PresentationController.loadManifest c).2))
(* the downloader answers a request: the processor hands the manifest to
   [loadedManifest] *)
| step_deliver now c n :
    step (deliverManifest now) (mk c (S n))
      (mk (PresentationController.loadedManifest now c).1 n)
(* a request ends without a manifest *)
| step_fail c n :
    step failRequest (mk c (S n)) (mk c n)
| step_tick m now sources v c n :
    let r := PresentationController.tick m now sources v c in
    step (runTick m now sources v) (mk c n)
      (mk (PresentationController.controller r)
          (n + manifestRequests (PresentationController.calls r)))
| step_state newState c n :
    step (changeState newState) (mk c n)
      (mk (PresentationController.setState newState c).1 n)
| step_download env p w c n c' w' e :
    SegmentWindow.downloadNextSegment env p c w = Returns (c', w', e) ->
    step (runDownload env p w) (mk c n) (mk c' (n + manifestRequests e)).

Inductive reachable : world -> Prop :=
| reachable_new u : reachable (mk (PresentationController.new u) 0)
| reachable_step l w w' : reachable w -> step l w w' -> reachable w'.

(** What a piece of code may do about manifest requests: nothing, or, with
    the flag down, issue one request and raise the flag. *)
Definition guarded (c c' : PresentationController.t) (e : list call) : Prop :=
  (manifestRequests e = 0%nat
   ∧ PresentationController.loadingManifest c'
     = PresentationController.loadingManifest c)
  ∨ (PresentationController.loadingManifest c = false
     ∧ manifestRequests e = 1%nat
     ∧ PresentationController.loadingManifest c' = true).

(** The flag is up whenever a request is outstanding, and there is never
    more than one. *)
Definition oneLoad (w : world) : Prop :=
  (inFlight w ≤ 1)%nat
  ∧ (inFlight w = 1%nat
     → PresentationController.loadingManifest (controller w) = true).

End ManifestLoading.

(* ================================================================== *)
(** * Runs of a segment window *)
(* ================================================================== *)

(** A window together with the places of the segments whose address has
    been handed to the downloader, in the order of the requests. The steps
    are the calls that write the window or its segments: the two updates,
    [downloadNextSegment], and the downloader reporting the end of a
    download. *)
Module Downloading.

Fixpoint mediaRequests (e : list call) : list nat :=
  match e with
  | [] => []
  | getMedia _ i :: rest => i :: mediaRequests rest
  | _ :: rest => mediaRequests rest
  end.

(** A source hands out segments that no download has touched. *)
Definition fresh (src : SegmentWindow.source) : Prop :=
  ∀ a b, Forall (λ s, Segment.state_ s = Segment.pending)
                (SegmentWindow.segmentsInRange src a b).

Record world : Type := mk {
  window : SegmentWindow.t;
  requested : list nat
}.

Inductive label : Type :=
| progress (env : SegmentWindow.environment) (p : SegmentWindow.presentation)
           (c : PresentationController.t)
| finish (i : nat) (st : Segment.state)
| update (src : SegmentWindow.source) (p : SegmentWindow.presentation).

Inductive step : label -> world -> world -> Prop :=
| step_progress env p c w tr c' w' e :
    SegmentWindow.downloadNextSegment env p c w = Returns (c', w', e) ->
    step (progress env p c) (mk w tr) (mk w' (tr ++ mediaRequests e))
(* Modelled from the spec: the downloader ends a download in flight,
   "downloading → {downloaded, errored}" *)
| step_finish i st s w tr :
    SegmentWindow.segments w !! i = Some s ->
    Segment.state_ s = Segment.downloading ->
    st = Segment.downloaded ∨ st = Segment.errored ->
    step (finish i st) (mk w tr)
      (mk (SegmentWindow.setSegments
             (<[i := Segment.setState st s]> (SegmentWindow.segments w)) w)
          tr)
| step_update src p w tr w' msgs :
    fresh src ->
    SegmentWindow.updateDynamic src p w = Returns (w', msgs) ->
    step (update src p) (mk w tr) (mk w' tr).

(** A run starts from a new window, or from the static update of one. *)
Inductive reachable : world -> Prop :=
| reachable_new : reachable (mk SegmentWindow.new [])
| reachable_static src p w :
    fresh src ->
    SegmentWindow.updateStatic src p SegmentWindow.new = Returns w ->
    reachable (mk w [])
| reachable_step l x y : reachable x -> step l x y -> reachable y.

(** The place of the segment a call of [downloadNextSegment] considers
    for download: the one at [loadIndex], or its successor when the one
    at [loadIndex] has finished. *)
Definition target (w : SegmentWindow.t) : option nat :=
  i ← SegmentWindow.loadIndex w;
  s ← SegmentWindow.segments w !! i;
  if bool_decide (Segment.state_ s = Segment.downloading) then None
  else if bool_decide (Segment.code Segment.downloaded
                       <= Segment.code (Segment.state_ s)) then
    if bool_decide ((i + 1)%nat = length (SegmentWindow.segments w))
    then None else Some (i + 1)%nat
  else Some i.

(** Places past [loadIndex]; every place while [loadIndex] is
    [undefined]. *)
Definition beyond (loadIndex : option nat) (j : nat) : Prop :=
  match loadIndex with
  | None => True
  | Some i => (i < j)%nat
  end.

(** What holds of every world of a run: the segments past [loadIndex]
    are still pending, no segment was requested twice, and the requested
    segments are those that have left the pending state. *)
Record consistent (x : world) : Prop := mkConsistent {
  untouched :
    ∀ j s, SegmentWindow.segments (window x) !! j = Some s →
           beyond (SegmentWindow.loadIndex (window x)) j →
           Segment.state_ s = Segment.pending;
  once : NoDup (requested x);
  accounted :
    ∀ j, j ∈ requested x
         ↔ ∃ s, SegmentWindow.segments (window x) !! j = Some s
                ∧ Segment.state_ s ≠ Segment.pending
}.

(** What a returning call of [downloadNextSegment] did, seen from a
    window [w] with request history [tr]: it started no download (and
    then the segment it considered, if any, was not available), or it
    started the download of the pending, available segment it considered
    and asked the downloader for its address, once. *)
Inductive progressed (env : SegmentWindow.environment)
    (w : SegmentWindow.t) (tr : list nat)
    (w' : SegmentWindow.t) (e : list call) : Prop :=
| progressed_idle :
    SegmentWindow.segments w' = SegmentWindow.segments w ->
    mediaRequests e = [] ->
    (∀ j s, target w = Some j -> SegmentWindow.segments w !! j = Some s ->
            SegmentWindow.available env s = false) ->
    progressed env w tr w' e
| progressed_started j s s' u :
    target w = Some j ->
    SegmentWindow.segments w !! j = Some s ->
    Segment.state_ s = Segment.pending ->
    SegmentWindow.available env s = true ->
    Segment.url (SegmentWindow.resolve env)
      (Segment.setState Segment.downloading s) = (u, s') ->
    Segment.state_ s' = Segment.downloading ->
    SegmentWindow.segments w' = <[j := s']> (SegmentWindow.segments w) ->
    e = [getMedia u j] ->
    j ∉ tr ->
    progressed env w tr w' e.

End Downloading.

(* ================================================================== *)
(** * Sample documents and sources *)
(* ================================================================== *)

Module Sample.

(** A fresh segment, as a source produces it. *)
Definition segment (start duration : Q) (number : Z) : Segment.t :=
  Segment.mk start duration number Segment.pending None.

(** A dynamic manifest with the given [suggestedPresentationDelay] and
    [timeShiftBufferDepth]. *)
Definition manifest (delay timeshift : option Q) : Manifest.t :=
  Manifest.setup
    (Manifest.mkDeclared (Some "dynamic"%string) delay timeshift None None None).

(** A source whose segment at the live edge is [edge] and whose next
    range holds the segments [produced]. *)
Definition source (edge : option Segment.t) (produced : list Segment.t)
  : SegmentWindow.source :=
  SegmentWindow.mkSource (fun _ => edge) (fun _ => None) (fun _ _ => produced).

Definition presentation (liveEdge : Q) (m : Manifest.t)
  : SegmentWindow.presentation :=
  SegmentWindow.mkPresentation liveEdge NaN None m.

(** A source that finds no segment at the live edge; the content there
    ends in no repeating segment and holds [segments]. *)
Definition lagging (segments : list Segment.t) : SegmentWindow.source :=
  SegmentWindow.mkSource
    (fun _ => None)
    (fun _ => Some (SegmentWindow.mkContent false (fun _ => None) segments))
    (fun _ _ => []).

(** A window that has queued the segments [[0,4)] and [[4,8)]. *)
Definition queued : SegmentWindow.t :=
  SegmentWindow.mk [segment 0 4 1; segment 4 4 2] None (Some 0%nat) (Some 8%Q).

(** A live source: the segment at the live edge is [[4,8)], and its
    next range holds [[0,4)] and [[4,8)]. *)
Definition liveSource : SegmentWindow.source :=
  source (Some (segment 4 4 2)) [segment 0 4 1; segment 4 4 2].

Definition live : SegmentWindow.presentation :=
  presentation 9 (manifest None (Some 30%Q)).

(** Every segment is available; all share one address. *)
Definition environment : SegmentWindow.environment :=
  SegmentWindow.mkEnvironment (fun _ => true) (fun _ => "segment.m4s"%string).

Definition controller : PresentationController.t :=
  PresentationController.new "manifest.mpd".

(** [queued] once the download of its first segment has started. *)
Definition started : SegmentWindow.t :=
  SegmentWindow.mk
    [Segment.mk 0 4 1 Segment.downloading (Some "segment.m4s"%string);
     segment 4 4 2]
    None (Some 0%nat) (Some 8%Q).

(** A window whose only segment, [[0,4)], has been downloaded. *)
Definition drained : SegmentWindow.t :=
  SegmentWindow.mk [Segment.mk 0 4 1 Segment.downloaded (Some "segment.m4s"%string)]
    None (Some 0%nat) (Some 4%Q).

(** A presentation of declared duration [d], at live edge 0. *)
Definition static (d : Q) : SegmentWindow.presentation :=
  SegmentWindow.mkPresentation 0 NaN (Some d) (manifest None None).

(** A template as an AdaptationSet declares it, complete. *)
Definition template : SegmentTemplate.t :=
  SegmentTemplate.mk None (Some "init.mp4"%string) None
    (Some "chunk-$Number$.m4s"%string) (Some 1) (Some 90000) (Some 360000) (Some 0).

(** A [TemplateString] that is never invalid and whose processed form is
    the string it was given. *)
Definition verbatim (name : string) (this : SegmentTemplateObject.t)
  : SegmentTemplateObject.templateString :=
  let plain (x : SegmentTemplateObject.property) :=
    match x with
    | SegmentTemplateObject.text s => s
    | SegmentTemplateObject.compiled ts => SegmentTemplateObject.processed ts
    end in
  SegmentTemplateObject.mkTemplateString false
    (if String.eqb name "bitstreamSwitching"
     then SegmentTemplateObject.bitstreamSwitching this
     else if String.eqb name "initialization"
     then SegmentTemplateObject.initialization this
     else if String.eqb name "index"
     then plain (SegmentTemplateObject.index this)
     else plain (SegmentTemplateObject.media this)).

End Sample.

(* ================================================================== *)
(** * Further methods of the modelled classes *)
(* ================================================================== *)

(** ** SegmentTemplate: [aligned] and [clone] *)

Module TemplateMethods.




End TemplateMethods.

(** ** SegmentWindow: [update], and runs of a live window *)

Module LiveWindow.

(** [SegmentWindow.update()]; [willStartAtBeginning] is the property of the
    presentation it reads. *)
Definition update (willStartAtBeginning : bool) (src : SegmentWindow.source)
    (p : SegmentWindow.presentation) (w : SegmentWindow.t)
  : outcome (SegmentWindow.t * list call) :=
  if willStartAtBeginning then
    w' ← SegmentWindow.updateStatic src p w;
    Returns (w', [])
  else SegmentWindow.updateDynamic src p w.

(** The segments [merge] appends: the new range, without its first segment
    when that one is value-equal to the last queued segment. *)
Definition appended (w : SegmentWindow.t) (new : list Segment.t)
  : list Segment.t :=
  match last (SegmentWindow.segments w), new with
  | Some lastSegment, first :: rest =>
      if Segment.equal lastSegment first then rest else new
  | _, _ => new
  end.

(** What [merge] prints when it appends: the error when the first appended
    segment does not start where the last queued one ends. *)
Definition flagged (w : SegmentWindow.t) (added : list Segment.t) : list call :=
  match last (SegmentWindow.segments w), head added with
  | Some lastSegment, Some first' =>
      if Qeq_bool (Segment.end_ lastSegment) (Segment.start first')
      then [] else [consoleError SegmentWindow.discontiguous]
  | _, _ => []
  end.

(** The runs of a window that is only ever updated dynamically: from the
    constructor, by the steps of [Downloading.step]. *)
Inductive run : Downloading.world -> Prop :=
| run_new : run (Downloading.mk SegmentWindow.new [])
| run_step l x y : run x -> Downloading.step l x y -> run y.

(** What holds of the window in every such run: [loadIndex] is defined
    exactly when segments are queued and lies within them, and
    [nextRangeStart] is the end of the last queued segment. *)
Record bounded (w : SegmentWindow.t) : Prop := mkBounded {
  within :
    match SegmentWindow.loadIndex w with
    | Some i => (i < length (SegmentWindow.segments w))%nat
    | None => SegmentWindow.segments w = []
    end;
  rangeEnd :
    SegmentWindow.nextRangeStart w
    = Segment.end_ <$> last (SegmentWindow.segments w)
}.

(** The segment at [loadIndex] has finished and is the last one of a
    presentation whose declared duration it reaches: the first test of
    [downloadNextSegment] on the last segment. *)
Definition endOfStream (p : SegmentWindow.presentation) (s : Segment.t) : bool :=
  truthy (toNumber (SegmentWindow.timelineDuration p))
  && geb (Segment.end_ s) (default 0%Q (SegmentWindow.timelineDuration p)).

Definition finished (s : Segment.t) : bool :=
  bool_decide (Segment.code Segment.downloaded
               <= Segment.code (Segment.state_ s)).

End LiveWindow.

(** ** PresentationController: when [tick] reloads the manifest *)

Module Reload.


End Reload.

(** ** The tick together with the windows it advances *)

Module Buffering.

(** A source of the presentation as [tick] meets it: the window that
    queues its segments, and what that window asks of them.

    Modelled from the spec: [source.timeline.currentPeriod] passes through
    classes that are missing; "request the next-download advance for every
    active source's current period". The call
    [source.timeline.currentPeriod.downloadNextSegment()] is taken to reach
    [downloadNextSegment] of the window of the source. *)
Record source : Type := mkSource {
  environment : SegmentWindow.environment;
  window : SegmentWindow.t
}.

(** What a [tick] leaves behind: the controller, the sources with their
    windows, the video element, the calls made, and the error if it ended
    by raising. *)
Record ticked : Type := mkTicked {
  controller : PresentationController.t;
  sources : list source;
  video : Video.t;
  calls : list call;
  raised : option error
}.

(** The loop [for (let source of this.presentation.sources)] of [tick].
    The windows share the controller; a call that raises ends the loop,
    and the sources after it are not visited. *)
Fixpoint downloadAll (p : SegmentWindow.presentation) (v : Video.t)
    (active : list source) (c : PresentationController.t) : ticked :=
  match active with
  | [] => mkTicked c [] v [] None
  | s :: rest =>
      match SegmentWindow.downloadNextSegment (environment s) p c (window s) with
      | Throws e => mkTicked c (s :: rest) v [] (Some e)
      | Returns (c1, w1, e1) =>
          let r := downloadAll p v rest c1 in
          mkTicked (controller r) (mkSource (environment s) w1 :: sources r) v
                   (e1 ++ calls r) (raised r)
      end
  end.

(** [tick()], at the time [now] read from [performance.now()]; the
    manifest is the one of the presentation. *)
Definition tick (now : Q) (p : SegmentWindow.presentation)
    (active : list source) (v : Video.t) (c : PresentationController.t)
  : ticked :=
  let m := SegmentWindow.manifest p in
  let '(c1, e1) := PresentationController.reloadIfDue m now c in
  if ltb (PresentationController.remaining v) (PresentationController.minBuffer m)
  then
    let r := downloadAll p v active c1 in
    mkTicked (controller r) (sources r) v (e1 ++ calls r) (raised r)
  else if bool_decide (PresentationController.current c1
                       = PresentationController.sourcesInitialised) then
    let '(c2, e2) :=
      PresentationController.setState PresentationController.bufferAvailable c1 in
    match Video.bufferedStart0 v with
    | Throws e => mkTicked c2 active v (e1 ++ e2) (Some e)
    | Returns s =>
        mkTicked c2 active (Video.play (Video.setCurrentTime s v)) (e1 ++ e2) None
    end
  else mkTicked c1 active v e1 None.



(** The segment at [loadIndex] has finished, is the last one queued and
    does not reach a declared presentation duration: the window has
    nothing left to download. *)
Definition drained (p : SegmentWindow.presentation) (w : SegmentWindow.t)
  : Prop :=
  ∃ i s, SegmentWindow.loadIndex w = Some i
         ∧ SegmentWindow.segments w !! i = Some s
         ∧ LiveWindow.finished s = true
         ∧ (i + 1)%nat = length (SegmentWindow.segments w)
         ∧ LiveWindow.endOfStream p s = false.


End Buffering.

(** ** Construction of AdaptationSets from document nodes *)

Module AdaptationSetNode.

(** What the calls [AdaptationSet.setup] makes into the missing [Model]
    base class come to; each may raise.

    Modelled from the spec: "Parsing an attribute with a value that fails
    its declared type conversion is a construction error", for the
    attributes of the AdaptationSet and for those of the children it
    constructs. *)
Record t : Type := mk {
  attrs : outcome (option string);
    (* [this.attrs(commonAttributes, {...})]: the declared [mimeType] *)
  children : outcome (option SegmentTemplate.t * list Representation.t)
    (* [initAll(ContentComponent)], [init(SegmentTemplate)],
       [initAll(Representation)]: the template and the Representations *)
}.

(** [AdaptationSet.setup], from its first statement: the attributes are
    parsed before the index is taken, the children are constructed after
    it. *)
Definition setup (n : t) (c : AdaptationSet.counter)
  : outcome AdaptationSet.t * AdaptationSet.counter :=
  match attrs n with
  | Throws e => (Throws e, c)
  | Returns declaredMimeType =>
      let '(idx, c') := AdaptationSet.nextIndex c in
      ('(template, representations) ← children n;
       m ← AdaptationSet.resolveMimeType declaredMimeType representations;
       Returns (AdaptationSet.mk idx m template representations),
       c')
  end.

Fixpoint setupAll (nodes : list t) (c : AdaptationSet.counter)
  : list (outcome AdaptationSet.t) * AdaptationSet.counter :=
  match nodes with
  | [] => ([], c)
  | n :: rest =>
      let '(r, c1) := setup n c in
      let '(rs, c2) := setupAll rest c1 in
      (r :: rs, c2)
  end.

(** [attrs] returned: the construction has got as far as [nextIndex]. *)
Definition parsed (n : t) : bool :=
  match attrs n with
  | Returns _ => true
  | Throws _ => false
  end.

(** The number of nodes that take an index. *)
Fixpoint indexed (nodes : list t) : Z :=
  match nodes with
  | [] => 0
  | n :: rest => (if parsed n then 1 else 0) + indexed rest
  end.

(** A node whose attributes parse and whose children construct. *)
Definition ofInput (i : AdaptationSet.input) : t :=
  mk (Returns (AdaptationSet.declaredMimeType i))
     (Returns (AdaptationSet.template i, AdaptationSet.children i)).

End AdaptationSetNode.

(** ** PresentationController: [sourcesPrepared] and [sourceInitialised] *)

(** What the controller reads of a [Source] (the class is missing): its two
    type properties, its state, and the size of its video. *)
Module Source.

Record t : Type := mk {
  mseType : string;
  contentType : string;
  state : Z;
  width : Z;
  height : Z
}.

End Source.

Module Preparation.

(** What [sourcesPrepared] leaves behind: the controller, the elements of
    [presentation.sources], the calls made to the player, the dimensions
    given to the player, the sources whose [loadInitFile] was called, and
    the error if it ended by raising. *)
Record prepared : Type := mkPrepared {
  controller : PresentationController.t;
  sources : list Source.t;
  calls : list call;
  dimensions : option (Z * Z);
  initFiles : list Source.t;
  raised : option error
}.

Definition noVideoSource : string :=
  "player could not initialise a valid video source".

Section WithPlatform.

(** [video.canPlayType]; [source.createBuffer()], which is missing: the
    source after the call, and the error if it raised; and the constants
    [Source.bufferCreated] and [Source.initialised]. *)
Variable canPlayType : string -> string.
Variable createBuffer : Source.t -> Source.t * option error.
Variable bufferCreated : Z.
Variable initialised : Z.

(** The first loop of [sourcesPrepared], from the Map [initialisedTypes]
    as it stands: the sources after the loop, the Map, and the events
    emitted. *)
Fixpoint createBuffers (sources : list Source.t)
    (initialisedTypes : gmap string Source.t)
  : list Source.t * gmap string Source.t * list call :=
  match sources with
  | [] => ([], initialisedTypes, [])
  | source :: rest =>
      if String.eqb (canPlayType (Source.mseType source)) EmptyString then
        let '(rest', types, e) := createBuffers rest initialisedTypes in
        (source :: rest', types, e)
      else if bool_decide (is_Some (initialisedTypes !! Source.contentType source)) then
        let '(rest', types, e) := createBuffers rest initialisedTypes in
        (source :: rest', types, e)
      else
        match createBuffer source with
        | (source', None) =>
            let '(rest', types, e) :=
              createBuffers rest
                (<[Source.contentType source' := source']> initialisedTypes) in
            (source' :: rest', types, e)
        | (source', Some _) =>
            let '(rest', types, e) := createBuffers rest initialisedTypes in
            (source' :: rest', types, emit "errorCreatingBuffers" :: e)
        end
  end.

(** [sourcesPrepared()]. *)
Definition sourcesPrepared (sources : list Source.t)
    (c : PresentationController.t) : prepared :=
  let '(sources1, types, e1) := createBuffers sources ∅ in
  match types !! "video"%string with
  | None =>
      mkPrepared c sources1 (e1 ++ [emit "noValidVideoSource"]) None []
        (Some (Thrown noVideoSource))
  | Some videoSource =>
      let kept :=
        filter (λ s, Source.state s = bufferCreated) sources1 in
      let '(c', e2) :=
        PresentationController.setState
          PresentationController.sourceBuffersCreated c in
      mkPrepared c' kept (e1 ++ [emit "dimensionChange"] ++ e2)
        (Some (Source.width videoSource, Source.height videoSource))
        kept None
  end.

(** [sourceInitialised()]: the controller, the events, and whether the
    tick interval was started. *)
Definition sourceInitialised (sources : list Source.t)
    (c : PresentationController.t)
  : PresentationController.t * list call * bool :=
  if forallb (λ s, bool_decide (Source.state s = initialised)) sources then
    let '(c', e) :=
      PresentationController.setState
        PresentationController.sourcesInitialised c in
    (c', e, true)
  else (c, [], false).

(** A source that [sourcesPrepared] can use for the content type [k]. *)
Definition usable (k : string) (s : Source.t) : Prop :=
  Source.contentType s = k
  ∧ canPlayType (Source.mseType s) ≠ EmptyString
  ∧ (createBuffer s).2 = None.

(** What the comments of [sourcesPrepared] expect of [createBuffer] on a
    source it is given: the source keeps its content type, is in the state
    [bufferCreated] after a successful call and not after a failed one,
    and is not in that state beforehand. *)
Record behaves (s : Source.t) : Prop := mkBehaves {
  keepsType : Source.contentType (createBuffer s).1 = Source.contentType s;
  marksCreated :
    (createBuffer s).2 = None → Source.state (createBuffer s).1 = bufferCreated;
  marksFailed :
    (createBuffer s).2 ≠ None → Source.state (createBuffer s).1 ≠ bufferCreated;
  startsWithout : Source.state s ≠ bufferCreated
}.

Definition wellBehaved (sources : list Source.t) : Prop :=
  Forall behaves sources.

End WithPlatform.

End Preparation.

(** A platform that plays every type but ["video/webm"], on which buffer
    creation fails for ["audio/ogg"] only and puts a source in state 1;
    and three sources: two videos and one audio track. *)
Module SamplePlatform.

Definition canPlayType (mseType : string) : string :=
  if String.eqb mseType "video/webm" then EmptyString else "probably"%string.

Definition bufferCreated : Z := 1.
Definition initialised : Z := 2.

Definition createBuffer (s : Source.t) : Source.t * option error :=
  if String.eqb (Source.mseType s) "audio/ogg" then (s, Some TypeError)
  else (Source.mk (Source.mseType s) (Source.contentType s) bufferCreated
          (Source.width s) (Source.height s), None).

Definition webm : Source.t := Source.mk "video/webm" "video" 0 1280 720.
Definition mp4 : Source.t := Source.mk "video/mp4" "video" 0 640 360.
Definition mp4Large : Source.t := Source.mk "video/mp4" "video" 0 1920 1080.
Definition aac : Source.t := Source.mk "audio/mp4" "audio" 0 0 0.

Definition sources : list Source.t := [webm; mp4; mp4Large; aac].

End SamplePlatform.

(* ================================================================== *)
(** * Theorems *)
(* ================================================================== *)

(** ** Inheritance between SegmentTemplates *)

Section TemplateInheritance.

Import SegmentTemplate.

Lemma inheritAttr_self {A} (a : option A) : Model.inheritAttr a a = a.
Proof. by destruct a. Qed.

Lemma inheritAttr_again {A} (a b : option A) :
  Model.inheritAttr (Model.inheritAttr a b) b = Model.inheritAttr a b.
Proof. by destruct a, b. Qed.

Lemma inheritFrom_self (s : t) : inheritFrom (Some s) s = s.
Proof.
  destruct s; unfold inheritFrom; simpl.
  by rewrite !inheritAttr_self.
Qed.

Lemma inheritFrom_again (o : option t) (s : t) :
  inheritFrom o (inheritFrom o s) = inheritFrom o s.
Proof.
  destruct o as [o|]; [|reflexivity].
  destruct s, o; unfold inheritFrom; simpl.
  by rewrite !inheritAttr_again.
Qed.

(** Once the defaults are in, the three defaulted attributes are present,
    whatever is inherited afterwards. *)
Lemma fillDefaults_setup (d : t) (a p : option t) :
  fillDefaults (setup d a p) = setup d a p.
Proof.
  unfold setup.
  destruct d, a as [[]|], p as [[]|]; reflexivity.
Qed.

(** The five attributes without a built-in default follow the precedence
    own, AdaptationSet, Period. *)
Lemma setup_precedence (d : t) (a p : option t) :
  let r := setup d a p in
  bitstreamSwitching r
    = firstDeclared (bitstreamSwitching d) (a ≫= bitstreamSwitching)
                    (p ≫= bitstreamSwitching)
  ∧ initialization r
    = firstDeclared (initialization d) (a ≫= initialization)
                    (p ≫= initialization)
  ∧ index r = firstDeclared (index d) (a ≫= index) (p ≫= index)
  ∧ media r = firstDeclared (media d) (a ≫= media) (p ≫= media)
  ∧ duration r = firstDeclared (duration d) (a ≫= duration) (p ≫= duration).
Proof.
  unfold setup, firstDeclared.
  destruct a as [a|], p as [p|]; simpl; repeat split;
    try reflexivity;
    match goal with |- context [Model.inheritAttr ?x None] => by destruct x end.
Qed.

(** The three attributes with a built-in default never take an ancestor's
    value: the default is stored before the ancestors are consulted. *)
Lemma setup_defaulted (d : t) (a p : option t) :
  let r := setup d a p in
  startNumber r = Some (default 1 (startNumber d))
  ∧ timescale r = Some (default 1 (timescale d))
  ∧ presentationTimeOffset r = Some (default 0 (presentationTimeOffset d)).
Proof.
  unfold setup. destruct a as [a|], p as [p|]; simpl; auto.
Qed.

(** A template that already holds the defaults and everything its
    ancestors offer is unchanged by [setup]. *)
Lemma setup_fixed (s : t) (a p : option t) :
  fillDefaults s = s → inheritFrom a s = s → inheritFrom p s = s →
  setup s a p = s.
Proof. unfold setup. by intros -> -> ->. Qed.

(** Running [setup] again on a constructed template, under an ancestry
    that holds that same template, changes none of its attributes. *)
Lemma setup_of_adaptationSet_template (d : t) (p : option t) :
  setup (setup d None p) (Some (setup d None p)) p = setup d None p.
Proof.
  apply setup_fixed.
  - apply fillDefaults_setup.
  - apply inheritFrom_self.
  - unfold setup. apply inheritFrom_again.
Qed.

Lemma setup_of_period_template (d : t) :
  setup (setup d None None) None (Some (setup d None None)) = setup d None None.
Proof.
  apply setup_fixed.
  - apply fillDefaults_setup.
  - reflexivity.
  - apply inheritFrom_self.
Qed.

End TemplateInheritance.

(** C2. A SegmentTemplate that declares no [startNumber], under an
    AdaptationSet whose template declares [startNumber = 5]: the spec's
    precedence (own, AdaptationSet, Period) gives 5, and [setup] stores the
    built-in default 1, because the default is filled in before the
    ancestors are consulted. The same holds for [timescale] and
    [presentationTimeOffset]. *)
Theorem C2_declared_ancestor_value_loses_to_default :
  let declaredOnAdaptationSet :=
    SegmentTemplate.mk None None None None (Some 5) (Some 90000) None (Some 7) in
  let ofAdaptationSet :=
    Representation.adaptationSetTemplate (Some declaredOnAdaptationSet) None in
  let resolved :=
    SegmentTemplate.setup SegmentTemplate.empty ofAdaptationSet None in
  SegmentTemplate.firstDeclared
    (SegmentTemplate.startNumber SegmentTemplate.empty)
    (SegmentTemplate.startNumber declaredOnAdaptationSet) None = Some 5
  ∧ SegmentTemplate.startNumber resolved = Some 1
  ∧ SegmentTemplate.timescale resolved = Some 1
  ∧ SegmentTemplate.presentationTimeOffset resolved = Some 0.
Proof. repeat split. Qed.

(** ** Template resolution of a Representation *)

Section TemplateResolution.

Import SegmentTemplateObject.

Variable compile : string → SegmentTemplateObject.t → templateString.

(** [postSetup] leaves the template of a Period or of an AdaptationSet as
    [setup] made it. *)
Lemma postSetup_of_default (s : SegmentTemplate.t) :
  postSetup compile (ofAttributes inPeriod s) = (ofAttributes inPeriod s, false)
  ∧ postSetup compile (ofAttributes inAdaptationSet s)
    = (ofAttributes inAdaptationSet s, false).
Proof. by split. Qed.

(** On a template under a Representation, [postSetup] keeps the parent and
    the four numbers, saves the [index] and [media] strings, and puts
    [TemplateString]s in their place. *)
Lemma postSetup_of_base (s : SegmentTemplate.t) :
  let r := (postSetup compile (ofAttributes inRepresentation s)).1 in
  parent r = inRepresentation
  ∧ startNumber r = SegmentTemplate.startNumber s
  ∧ timescale r = SegmentTemplate.timescale s
  ∧ duration r = SegmentTemplate.duration s
  ∧ presentationTimeOffset r = SegmentTemplate.presentationTimeOffset s
  ∧ index_str r = text (SegmentTemplate.index s)
  ∧ media_str r = text (SegmentTemplate.media s)
  ∧ (∃ ts, index r = compiled ts)
  ∧ (∃ ts, media r = compiled ts).
Proof. simpl. repeat split; eexists; reflexivity. Qed.

(** The copy a Representation makes of the template of its AdaptationSet,
    or of its Period when the AdaptationSet has none. *)
Lemma construct_default (ofAdaptationSet ofPeriod : option SegmentTemplate.t)
    (d : SegmentTemplate.t) :
  let a := Representation.adaptationSetTemplate ofAdaptationSet ofPeriod in
  let p := Representation.periodTemplate ofPeriod in
  Representation.defaultTemplate
    (Some (Representation.mkAncestor a)) (Some (Representation.mkAncestor p))
  = Some d →
  SegmentTemplate.setup d a p = d.
Proof.
  unfold Representation.defaultTemplate, Representation.adaptationSetTemplate.
  simpl.
  destruct ofAdaptationSet as [x|]; simpl.
  - intros [= <-]. apply setup_of_adaptationSet_template.
  - destruct ofPeriod as [y|]; simpl; [|discriminate].
    intros [= <-]. apply setup_of_period_template.
Qed.

(** [setup] raises as soon as one of the calls it starts with does, and
    otherwise only for want of a template. *)
Lemma setup_throws_iff (n : Representation.node)
    (adaptationSet period : option Representation.ancestor) :
  throws (Representation.setup compile n adaptationSet period)
  ↔ throws (Representation.attrs n)
    ∨ throws (Representation.subRepresentations n)
    ∨ throws (Representation.declaredTemplate n)
    ∨ throws (Representation.baseURL n)
    ∨ (Representation.declaredTemplate n = Returns None
       ∧ Representation.defaultTemplate adaptationSet period = None).
Proof.
  unfold Representation.setup.
  destruct n as [[[]|?] [[]|?] [[own|]|?] [[]|?]]; simpl;
    try destruct (Representation.defaultTemplate adaptationSet period);
    simpl; intuition discriminate.
Qed.

End TemplateResolution.

(** C3. [ofAdaptationSet] and [ofPeriod] are the attributes the document
    declares on the templates of the two ancestors, [compile] is what the
    [TemplateString] class makes of a template string.

    The template a Representation without one of its own falls back on is
    its AdaptationSet's when there is one, else its Period's. When the
    calls [setup] starts with return, [setup] constructs a new template
    from it with the Representation as parent: the result of [postSetup]
    on a copy of the ancestor's attributes, so that the four numbers are
    the ancestor's, [index_str] and [media_str] hold the ancestor's [index]
    and [media] strings, and [index] and [media] themselves hold
    [TemplateString]s; without a template in the ancestry [setup] raises
    the missing-template error. The templates of the AdaptationSet and of
    the Period themselves are left by [postSetup] as they were. In general
    [setup] raises exactly when one of the calls it starts with raises, or
    the Representation, the AdaptationSet and the Period all lack a
    template. *)
Theorem C3_template_from_nearest_ancestor
    (compile : string → SegmentTemplateObject.t
               → SegmentTemplateObject.templateString)
    (ofAdaptationSet ofPeriod : option SegmentTemplate.t) :
  let a := Representation.adaptationSetTemplate ofAdaptationSet ofPeriod in
  let p := Representation.periodTemplate ofPeriod in
  let adaptationSet := Some (Representation.mkAncestor a) in
  let period := Some (Representation.mkAncestor p) in
  let undeclared :=
    Representation.mkNode (Returns ()) (Returns ()) (Returns None) (Returns ()) in
  Representation.defaultTemplate adaptationSet period
  = match a with Some x => Some x | None => p end
  ∧ match Representation.defaultTemplate adaptationSet period with
    | Some d =>
        ∃ r, Representation.setup compile undeclared adaptationSet period
             = Returns r
          ∧ (Representation.template r, Representation.invalid r)
            = SegmentTemplateObject.postSetup compile
                (SegmentTemplateObject.ofAttributes
                   SegmentTemplateObject.inRepresentation d)
          ∧ SegmentTemplateObject.parent (Representation.template r)
            = SegmentTemplateObject.inRepresentation
          ∧ SegmentTemplateObject.startNumber (Representation.template r)
            = SegmentTemplate.startNumber d
          ∧ SegmentTemplateObject.timescale (Representation.template r)
            = SegmentTemplate.timescale d
          ∧ SegmentTemplateObject.duration (Representation.template r)
            = SegmentTemplate.duration d
          ∧ SegmentTemplateObject.presentationTimeOffset
              (Representation.template r)
            = SegmentTemplate.presentationTimeOffset d
          ∧ SegmentTemplateObject.index_str (Representation.template r)
            = SegmentTemplateObject.text (SegmentTemplate.index d)
          ∧ SegmentTemplateObject.media_str (Representation.template r)
            = SegmentTemplateObject.text (SegmentTemplate.media d)
          ∧ (∃ ts, SegmentTemplateObject.index (Representation.template r)
                   = SegmentTemplateObject.compiled ts)
          ∧ (∃ ts, SegmentTemplateObject.media (Representation.template r)
                   = SegmentTemplateObject.compiled ts)
    | None =>
        Representation.setup compile undeclared adaptationSet period
        = Throws (Thrown Representation.noTemplate)
    end
  ∧ (∀ s : SegmentTemplate.t,
       SegmentTemplateObject.postSetup compile
         (SegmentTemplateObject.ofAttributes
            SegmentTemplateObject.inAdaptationSet s)
       = (SegmentTemplateObject.ofAttributes
            SegmentTemplateObject.inAdaptationSet s, false)
       ∧ SegmentTemplateObject.postSetup compile
           (SegmentTemplateObject.ofAttributes SegmentTemplateObject.inPeriod s)
         = (SegmentTemplateObject.ofAttributes SegmentTemplateObject.inPeriod s,
            false))
  ∧ ∀ n : Representation.node,
      throws (Representation.setup compile n adaptationSet period)
      ↔ throws (Representation.attrs n)
        ∨ throws (Representation.subRepresentations n)
        ∨ throws (Representation.declaredTemplate n)
        ∨ throws (Representation.baseURL n)
        ∨ (Representation.declaredTemplate n = Returns None
           ∧ ofAdaptationSet = None ∧ ofPeriod = None).
Proof.
  intros a p adaptationSet period undeclared.
  split; [reflexivity|]. split; [|split; [by intros s|]].
  - destruct (Representation.defaultTemplate adaptationSet period) as [d|] eqn:Hd.
    + pose proof (construct_default ofAdaptationSet ofPeriod d Hd) as Hfixed.
      pose proof (postSetup_of_base compile d) as Hbase.
      exists (Representation.construct compile d adaptationSet period).
      split; [unfold Representation.setup; simpl; by rewrite Hd|].
      unfold Representation.construct, SegmentTemplateObject.new.
      change (adaptationSet ≫= Representation.ancestorTemplate) with a.
      change (period ≫= Representation.ancestorTemplate) with p.
      cbv zeta in Hfixed. fold a p in Hfixed. rewrite Hfixed.
      destruct (SegmentTemplateObject.postSetup compile _) as [tpl bad].
      split; [reflexivity|]. exact Hbase.
    + unfold Representation.setup. simpl. by rewrite Hd.
  - intros n. rewrite setup_throws_iff.
    unfold Representation.defaultTemplate, adaptationSet, period, a, p,
      Representation.adaptationSetTemplate, Representation.periodTemplate.
    destruct ofAdaptationSet, ofPeriod; simpl; intuition discriminate.
Qed.

(** C3, as stated, fails on two counts. A Representation under an
    AdaptationSet that has a template, with an attribute that fails its
    conversion: construction raises although a template is in the
    ancestry. And where construction returns, the template of the
    Representation is not equal to the one of the AdaptationSet in its
    [index] and [media], which [postSetup] has replaced. *)
Lemma C3_raises_with_a_template_in_ancestry :
  let ofAdaptationSet :=
    Representation.adaptationSetTemplate (Some Sample.template) None in
  let adaptationSet := Some (Representation.mkAncestor ofAdaptationSet) in
  let period := Some (Representation.mkAncestor None) in
  ofAdaptationSet = Some Sample.template
  ∧ throws (Representation.setup Sample.verbatim
              (Representation.mkNode (Throws (Thrown "bandwidth"))
                 (Returns ()) (Returns None) (Returns ()))
              adaptationSet period)
  ∧ match Representation.setup Sample.verbatim
            (Representation.mkNode (Returns ()) (Returns ()) (Returns None)
               (Returns ()))
            adaptationSet period with
    | Returns r =>
        SegmentTemplateObject.media (Representation.template r)
        ≠ SegmentTemplateObject.text (SegmentTemplate.media Sample.template)
        ∧ Representation.template r
          ≠ SegmentTemplateObject.ofAttributes
              SegmentTemplateObject.inAdaptationSet Sample.template
    | Throws _ => False
    end.
Proof. vm_compute. repeat split; discriminate. Qed.

(** ** AdaptationSet indices *)

Section AdaptationSetIndex.

Import AdaptationSet.

Lemma setup_counter (i : input) (c : counter) :
  (setup i c).2 = Some (default 0 c + 1).
Proof. reflexivity. Qed.

Lemma setup_index (i : input) (c : counter) (a : t) :
  (setup i c).1 = Returns a → index a = default 0 c + 1.
Proof.
  unfold setup; simpl.
  destruct (resolveMimeType _ _); simpl; [|discriminate].
  by intros [= <-].
Qed.

Lemma setupAll_cons (i : input) (rest : list input) (c : counter) :
  setupAll (i :: rest) c
  = ((setup i c).1 :: (setupAll rest (setup i c).2).1,
     (setupAll rest (setup i c).2).2).
Proof.
  simpl. destruct (resolveMimeType _ _); simpl;
    by destruct (setupAll rest _).
Qed.

(** Every index handed out lies above the counter the construction
    started from, and the indices come out in increasing order. *)
Lemma setupAll_sorted (inputs : list input) :
  ∀ c : counter,
    Forall (λ k, default 0 c < k) (indices (setupAll inputs c).1)
    ∧ StronglySorted Z.lt (indices (setupAll inputs c).1).
Proof.
  induction inputs as [|i rest IH]; intros c.
  - split; constructor.
  - rewrite setupAll_cons. cbn [fst].
    destruct (IH (setup i c).2) as [Hlow Hsorted].
    rewrite setup_counter in Hlow, Hsorted. cbn [default] in Hlow.
    assert (Hweak : Forall (λ k, default 0 c < k)
                      (indices (setupAll rest (Some (default 0 c + 1))).1)).
    { eapply Forall_impl; [exact Hlow|]. intros k Hk; simpl in Hk. lia. }
    rewrite setup_counter.
    destruct (setup i c).1 as [a|e] eqn:Ha; cbn [indices].
    + apply setup_index in Ha.
      split.
      * constructor; [lia | exact Hweak].
      * constructor; [exact Hsorted|].
        eapply Forall_impl; [exact Hlow|]. intros k Hk; simpl in Hk. lia.
    + by split.
Qed.

Lemma sorted_lt_NoDup (l : list Z) : StronglySorted Z.lt l → NoDup l.
Proof.
  induction 1 as [|x l _ IH Hx]; constructor; [|exact IH].
  intros Hin. rewrite Forall_forall in Hx. specialize (Hx _ Hin). lia.
Qed.

End AdaptationSetIndex.

(** C8. However many AdaptationSets are constructed one after the other,
    and whatever the shared counter held before, the indices of the
    constructed AdaptationSets are strictly increasing in construction
    order, pairwise distinct, and above every index handed out earlier:
    [nextIndex] only ever adds one to the counter. *)
Theorem C8_indices_strictly_increasing
    (inputs : list AdaptationSet.input) (c : AdaptationSet.counter) :
  let constructed := AdaptationSet.indices (AdaptationSet.setupAll inputs c).1 in
  StronglySorted Z.lt constructed
  ∧ NoDup constructed
  ∧ Forall (λ k, default 0 c < k) constructed.
Proof.
  destruct (setupAll_sorted inputs c) as [Hlow Hsorted].
  repeat split; [exact Hsorted | by apply sorted_lt_NoDup | exact Hlow].
Qed.

(** ** The mimeType of an AdaptationSet *)

(** C10. With no declared [mimeType], [AdaptationSet.setup] reads the
    [mimeType] of the first Representation: it raises a [TypeError] when
    there is no Representation, and only then; with a Representation it
    takes that Representation's value, and a declared [mimeType] is kept
    whatever the children are. *)
Theorem C10_mimeType_needs_a_representation
    (template : option SegmentTemplate.t) (c : AdaptationSet.counter) :
  (AdaptationSet.setup (AdaptationSet.mkInput None template []) c).1
  = Throws TypeError
  ∧ (∀ representations,
       throws (AdaptationSet.resolveMimeType None representations)
       ↔ representations = [])
  ∧ (∀ r rest,
       AdaptationSet.resolveMimeType None (r :: rest)
       = Returns (Representation.mimeType r))
  ∧ (∀ m representations,
       AdaptationSet.resolveMimeType (Some m) representations
       = Returns (Some m)).
Proof.
  repeat split.
  - destruct representations; [reflexivity | intros []].
  - intros ->. exact I.
Qed.

(** ** Manifest loading *)

Section ManifestLoadingInvariant.

Import PresentationController ManifestLoading.

Lemma manifestRequests_app (e1 e2 : list call) :
  manifestRequests (e1 ++ e2) = (manifestRequests e1 + manifestRequests e2)%nat.
Proof.
  induction e1 as [|[] e1 IH]; simpl; auto.
Qed.

Lemma manifestRequests_downloads (sources : list nat) :
  manifestRequests (map downloadNextSegmentOf sources) = 0%nat.
Proof. induction sources; simpl; auto. Qed.

Lemma loadManifest_guarded (c : PresentationController.t) :
  guarded c (loadManifest c).1 (loadManifest c).2.
Proof.
  unfold guarded, loadManifest.
  destruct (loadingManifest c) eqn:Hflag; simpl; auto.
Qed.

Lemma setState_quiet (st : state) (c : PresentationController.t) :
  manifestRequests (setState st c).2 = 0%nat
  ∧ loadingManifest (setState st c).1 = loadingManifest c.
Proof. unfold setState. by case_bool_decide. Qed.

Lemma reloadIfDue_guarded (m : Manifest.t) (now : Q)
    (c : PresentationController.t) :
  guarded c (reloadIfDue m now c).1 (reloadIfDue m now c).2.
Proof.
  unfold reloadIfDue.
  destruct (_ && _); [|by left].
  destruct (manifestLoaded c), (Manifest.minimumUpdatePeriod m);
    try (by left).
  destruct (geb _ _); [apply loadManifest_guarded | by left].
Qed.

Lemma reloadIfDue_current (m : Manifest.t) (now : Q)
    (c : PresentationController.t) :
  current (reloadIfDue m now c).1 = current c.
Proof.
  unfold reloadIfDue, loadManifest.
  repeat (case_match; simpl; try reflexivity).
Qed.

Lemma tick_guarded m now sources v (c : PresentationController.t) :
  let r := tick m now sources v c in
  guarded c (PresentationController.controller r) (calls r).
Proof.
  unfold tick.
  pose proof (reloadIfDue_guarded m now c) as Hg.
  destruct (reloadIfDue m now c) as [c1 e1]; simpl in Hg.
  destruct (ltb _ _); simpl.
  { unfold guarded in *.
    rewrite manifestRequests_app, manifestRequests_downloads, Nat.add_0_r.
    exact Hg. }
  case_bool_decide; simpl; [|exact Hg].
  pose proof (setState_quiet bufferAvailable c1) as [Hq Hf].
  destruct (setState bufferAvailable c1) as [c2 e2]; simpl in Hq, Hf.
  unfold guarded in *.
  destruct (Video.bufferedStart0 v); simpl;
    rewrite manifestRequests_app, Hq, Nat.add_0_r, Hf; exact Hg.
Qed.

Lemma startDownload_quiet env i segment w :
  manifestRequests (SegmentWindow.startDownload env i segment w).2 = 0%nat.
Proof.
  unfold SegmentWindow.startDownload.
  destruct (negb _); [reflexivity|].
  by destruct (Segment.url _ _).
Qed.

Lemma downloadNextSegment_guarded env p c w c' w' e :
  SegmentWindow.downloadNextSegment env p c w = Returns (c', w', e) →
  guarded c c' e.
Proof.
  unfold SegmentWindow.downloadNextSegment.
  destruct (SegmentWindow.loadIndex w) as [i|];
    [|intros [= <- <- <-]; by left].
  destruct (SegmentWindow.segments w !! i) as [segment|]; simpl;
    [|discriminate].
  case_bool_decide; [intros [= <- <- <-]; by left|].
  case_bool_decide.
  - case_bool_decide.
    + destruct (_ && _); [intros [= <- <- <-]; by left|].
      destruct (loadingManifest c) eqn:Hflag; [intros [= <- <- <-]; by left|].
      pose proof (loadManifest_guarded c) as Hg.
      destruct (loadManifest c) as [c1 e1]; simpl in Hg.
      by intros [= <- <- <-].
    + destruct (_ !! _) as [next|]; simpl; [|discriminate].
      pose proof (startDownload_quiet env (i + 1) next
                    (SegmentWindow.setLoadIndex (i + 1) w)) as Hq.
      destruct (SegmentWindow.startDownload _ _ _ _) as [w2 e2].
      intros [= <- <- <-]. by left.
  - pose proof (startDownload_quiet env i segment w) as Hq.
    destruct (SegmentWindow.startDownload _ _ _ _) as [w2 e2].
    intros [= <- <- <-]. by left.
Qed.

Lemma guarded_oneLoad c n c' e :
  oneLoad (ManifestLoading.mk c n) → guarded c c' e →
  oneLoad (ManifestLoading.mk c' (n + manifestRequests e)).
Proof.
  unfold oneLoad, guarded; simpl.
  intros [Hle Hflag] [[-> ->]|(Hdown & -> & ->)].
  - rewrite Nat.add_0_r. auto.
  - destruct n as [|[|n]]; [auto | | lia].
    specialize (Hflag eq_refl). congruence.
Qed.

Lemma step_oneLoad l w w' : oneLoad w → step l w w' → oneLoad w'.
Proof.
  intros Hw Hstep. destruct Hstep.
  - eapply guarded_oneLoad; [exact Hw | apply loadManifest_guarded].
  - destruct Hw as [Hle _]; simpl in Hle.
    split; simpl; [lia | intros ->; lia].
  - destruct Hw as [Hle _]; simpl in Hle.
    split; simpl; [lia | intros ->; lia].
  - eapply guarded_oneLoad; [exact Hw | apply tick_guarded].
  - destruct Hw as [Hle Hflag]; simpl in *.
    split; simpl; [exact Hle|].
    intros Hn. rewrite (proj2 (setState_quiet newState c)). auto.
  - eapply guarded_oneLoad; [exact Hw|].
    eapply downloadNextSegment_guarded; eassumption.
Qed.

Lemma reachable_oneLoad w : reachable w → oneLoad w.
Proof.
  induction 1 as [u|l w w' _ IH Hstep].
  - split; simpl; [lia | discriminate].
  - eapply step_oneLoad; eassumption.
Qed.

(** Only the delivery of a manifest lowers the flag. *)
Lemma step_lowers_flag l w w' :
  step l w w' →
  loadingManifest (ManifestLoading.controller w) = true →
  loadingManifest (ManifestLoading.controller w') = false →
  ∃ now, l = deliverManifest now.
Proof.
  intros Hstep Hup Hdown. destruct Hstep; simpl in *.
  - destruct (loadManifest_guarded c) as [[_ Heq]|(Hc & _)]; congruence.
  - eauto.
  - congruence.
  - destruct (tick_guarded m now sources v c) as [[_ Heq]|(Hc & _)];
      fold r in Heq || idtac; congruence.
  - rewrite (proj2 (setState_quiet newState c)) in Hdown. congruence.
  - match goal with H : _ = Returns _ |- _ =>
      apply downloadNextSegment_guarded in H; destruct H as [[_ Heq]|(Hc & _)]
    end; congruence.
Qed.

End ManifestLoadingInvariant.

(** C5. In every state the controller can reach, at most one manifest
    request is outstanding, and the [loadingManifest] flag is up while it
    is; [loadManifest] called with the flag up changes nothing and asks the
    downloader for nothing; and a step that finds the flag up and leaves it
    down is the delivery of a loaded manifest to [loadedManifest]. *)
Theorem C5_one_manifest_load_in_flight :
  (∀ w, ManifestLoading.reachable w →
        (ManifestLoading.inFlight w ≤ 1)%nat
        ∧ (ManifestLoading.inFlight w = 1%nat →
           PresentationController.loadingManifest
             (ManifestLoading.controller w) = true))
  ∧ (∀ c, PresentationController.loadingManifest c = true →
          PresentationController.loadManifest c = (c, []))
  ∧ (∀ l w w',
       ManifestLoading.step l w w' →
       PresentationController.loadingManifest (ManifestLoading.controller w) = true →
       PresentationController.loadingManifest (ManifestLoading.controller w') = false →
       ∃ now, l = ManifestLoading.deliverManifest now)
  ∧ (∀ now c,
       PresentationController.loadingManifest
         (PresentationController.loadedManifest now c).1 = false).
Proof.
  split; [exact reachable_oneLoad|].
  split.
  { intros c Hc. unfold PresentationController.loadManifest. by rewrite Hc. }
  split; [exact step_lowers_flag|].
  intros now c. unfold PresentationController.loadedManifest.
  by destruct (if bool_decide _ then _ else _).
Qed.

(** ** The buffering tick *)

Section Tick.

Import PresentationController.

Lemma ltb_lt (a b : Q) : ltb a b = true ↔ (a < b)%Q.
Proof.
  unfold ltb. rewrite negb_true_iff.
  destruct (Qle_bool b a) eqn:Hle.
  - apply Qle_bool_iff in Hle. split; [discriminate|]. intros Hlt. lra.
  - split; [intros _|reflexivity].
    apply Qnot_le_lt. intros Hba. apply Qle_bool_iff in Hba. congruence.
Qed.

Lemma ltb_ge (a b : Q) : ltb a b = false ↔ (b <= a)%Q.
Proof.
  unfold ltb. rewrite negb_false_iff. apply Qle_bool_iff.
Qed.

(** A tick in [sourcesInitialised]: the state becomes [bufferAvailable]
    exactly when [remaining] has reached [minBuffer]; below it, the tick
    asks every source to advance its downloads and changes neither the
    state nor the video element; with a buffered range and the threshold
    reached, the position is set to the start of the first range and
    playback begins. *)
Lemma tick_sourcesInitialised m now sources v (c : t) :
  current c = sourcesInitialised →
  let r := tick m now sources v c in
  (current (controller r) = bufferAvailable
   ↔ (minBuffer m <= remaining v)%Q)
  ∧ ((remaining v < minBuffer m)%Q →
     current (controller r) = sourcesInitialised
     ∧ video r = v ∧ raised r = None
     ∧ calls r = (reloadIfDue m now c).2 ++ map downloadNextSegmentOf sources)
  ∧ (∀ s e rest,
       Video.buffered v = (s, e) :: rest →
       (minBuffer m <= e - Video.currentTime v)%Q →
       video r = Video.play (Video.setCurrentTime s v) ∧ raised r = None).
Proof.
  intros Hc. unfold tick.
  pose proof (reloadIfDue_current m now c) as Hcur.
  destruct (reloadIfDue m now c) as [c1 e1]; simpl in Hcur.
  rewrite Hc in Hcur.
  destruct (ltb (remaining v) (minBuffer m)) eqn:Hlt.
  - apply ltb_lt in Hlt. simpl. split; [|split].
    + split; [rewrite Hcur; discriminate | intros Hge; lra].
    + intros _. by rewrite Hcur.
    + intros s e rest Hb Hge. unfold remaining in Hlt. rewrite Hb in Hlt. lra.
  - apply ltb_ge in Hlt.
    rewrite bool_decide_eq_true_2 by exact Hcur.
    unfold setState. rewrite bool_decide_eq_false_2 by (rewrite Hcur; discriminate).
    split; [|split].
    + destruct (Video.bufferedStart0 v); simpl; by split.
    + intros Hlow. lra.
    + intros s e rest Hb _. unfold Video.bufferedStart0. by rewrite Hb.
Qed.

End Tick.

(** C7. A tick in [sourcesInitialised] with [minBufferTime] declared as
    zero and nothing buffered: the lookahead, taken as 0, has reached the
    threshold, so the state becomes [bufferAvailable]; the read of the
    start of the first buffered range then raises, the playback position is
    not set and playback does not begin. *)
Theorem C7_tick_with_nothing_buffered :
  let m := Manifest.setup
             (Manifest.mkDeclared (Some "dynamic"%string) None (Some 30000%Q)
                None (Some 0%Q) None) in
  let v := Video.mk 0 [] true in
  let c := PresentationController.mk
             PresentationController.sourcesInitialised false (Some 0%Q)
             "manifest.mpd" in
  let r := PresentationController.tick m 100 [0%nat; 1%nat] v c in
  (PresentationController.minBuffer m <= PresentationController.remaining v)%Q
  ∧ PresentationController.current (PresentationController.controller r)
    = PresentationController.bufferAvailable
  ∧ PresentationController.raised r = Some IndexSizeError
  ∧ PresentationController.video r = v
  ∧ Video.paused (PresentationController.video r) = true.
Proof. vm_compute. repeat split. discriminate. Qed.

(** ** The first range of a dynamic window *)

Section FirstRange.

Import SegmentWindow.

(** An absent [suggestedPresentationDelay] is stored as zero. *)
Lemma setup_suggestedPresentationDelay (d : Manifest.declared) :
  Manifest.suggestedPresentationDelay (Manifest.setup d)
  = default 0%Q (Manifest.d_suggestedPresentationDelay d).
Proof. reflexivity. Qed.

Lemma firstRangeStart_declared (m : Manifest.t) (timeshift edgeStart : Q) :
  Manifest.timeShiftBufferDepth m = Some timeshift →
  firstRangeStart edgeStart m
  = Num (Qmax (Qmax (edgeStart - stepBack m timeshift) (edgeStart - timeshift)) 0).
Proof.
  intros Hts. unfold firstRangeStart, stepBack. rewrite Hts. simpl.
  by destruct (Qeq_bool (Manifest.suggestedPresentationDelay m) 0).
Qed.

(** Half a non-negative depth never reaches past the depth: without a
    delay only the clamp at zero can bind. *)
Lemma half_depth_within (edgeStart timeshift : Q) :
  (0 <= timeshift)%Q →
  Qmax (edgeStart - timeshift / 2) (edgeStart - timeshift)
  == edgeStart - timeshift / 2.
Proof.
  intros Hts. apply Q.max_l.
  assert (Hhalf : timeshift / 2 == timeshift * (1 # 2)) by reflexivity.
  rewrite Hhalf. lra.
Qed.

End FirstRange.

(** What the first dynamic update of a window ([nextRangeStart]
    undefined) computes, whichever way the edge segment was found (at the
    live edge, or by one of the two fallbacks): with
    [timeShiftBufferDepth] declared, the start of the range is the start of
    the edge segment moved back by [suggestedPresentationDelay] when the
    manifest holds a non-zero one and by half of [timeShiftBufferDepth]
    otherwise, then raised to the edge segment's start minus
    [timeShiftBufferDepth] and to 0 where it lies below them. The floor is
    taken from the start of the edge segment, not from the live edge. *)
Lemma rangeStart_first_update
    (src : SegmentWindow.source) (p : SegmentWindow.presentation)
    (w : SegmentWindow.t) (edge : Segment.t) (timeshift : Q) :
  SegmentWindow.nextRangeStart w = None →
  match SegmentWindow.segmentAt src (SegmentWindow.liveEdge p) with
  | Some e => Returns e
  | None => SegmentWindow.fallbackEdgeSegment src p
  end = Returns edge →
  Manifest.timeShiftBufferDepth (SegmentWindow.manifest p) = Some timeshift →
  ∃ chosen : Q,
    SegmentWindow.rangeStart src p w = Returns (Num chosen)
    ∧ chosen
      == Qmax (Qmax (Segment.start edge
                     - SegmentWindow.stepBack (SegmentWindow.manifest p) timeshift)
                    (Segment.start edge - timeshift)) 0
    ∧ (Segment.start edge - timeshift <= chosen)%Q
    ∧ (0 <= chosen)%Q
    ∧ (Manifest.suggestedPresentationDelay (SegmentWindow.manifest p) == 0 →
       (0 <= timeshift)%Q →
       chosen == Qmax (Segment.start edge - timeshift / 2) 0).
Proof.
  intros Hfirst Hedge Hts.
  eexists. split.
  { unfold SegmentWindow.rangeStart. rewrite Hfirst, Hedge. simpl.
    by rewrite (firstRangeStart_declared _ timeshift). }
  split; [reflexivity|].
  split; [eapply Qle_trans; [apply Q.le_max_r | apply Q.le_max_l]|].
  split; [apply Q.le_max_r|].
  intros Hdelay Hpos. unfold SegmentWindow.stepBack.
  apply Qeq_bool_iff in Hdelay. rewrite Hdelay.
  apply Q.max_compat; [by apply half_depth_within | reflexivity].
Qed.

(** The same with the edge segment found by the fallback: no segment at
    the live edge 100, the last segment of the content there starts at 96;
    with a depth of 30 and no delay the range starts at 81. *)
Example rangeStart_first_update_fallback :
  ∃ chosen : Q,
    SegmentWindow.rangeStart
      (Sample.lagging [Sample.segment 92 4 23; Sample.segment 96 4 24])
      (Sample.presentation 100 (Sample.manifest None (Some 30%Q)))
      SegmentWindow.new
    = Returns (Num chosen)
    ∧ chosen == 81.
Proof.
  destruct (rangeStart_first_update
              (Sample.lagging [Sample.segment 92 4 23; Sample.segment 96 4 24])
              (Sample.presentation 100 (Sample.manifest None (Some 30%Q)))
              SegmentWindow.new (Sample.segment 96 4 24) 30
              eq_refl eq_refl eq_refl)
    as (chosen & Hchosen & _ & _ & _ & Hhalf).
  exists chosen. split; [exact Hchosen|].
  eapply Qeq_trans; [apply Hhalf; by vm_compute|].
  by vm_compute.
Qed.

(** C1. Two inputs on which the first range does not start where the
    specification, and the comments of [updateDynamic], put it.

    The floor. The source comments its first clamp with "time >= now -
    timeshift". With the live edge at 100, the edge segment [[98,102)], a
    depth of 30 and a suggested delay of 40, the range starts at 68, which
    is earlier than the live edge minus the depth, 70: the floor is
    computed from the start of the edge segment. The same happens with a
    depth of 30000 and a delay of 40000 at the live edge 1000000 of a
    long-running stream, with the edge segment starting at 999998.

    The units. The source comments the subtraction of the delay with "move
    back by that many seconds" and prints the distance from the live edge
    in seconds, while the manifest holds its durations in milliseconds
    ([tick] divides [minBufferTime] by 1000). In the scenario of the
    specification, the depth 30000 as the manifest stores it, no delay, and
    the edge segment starting at the live edge 100, the range starts at 0,
    not at 85. *)
Theorem C1_first_range_start_floor_and_units :
  match SegmentWindow.rangeStart
          (Sample.source (Some (Sample.segment 98 4 25)) [])
          (Sample.presentation 100 (Sample.manifest (Some 40%Q) (Some 30%Q)))
          SegmentWindow.new with
  | Returns (Num x) => x == 68 ∧ (x < 100 - 30)%Q
  | _ => False
  end
  ∧ match SegmentWindow.rangeStart
            (Sample.source (Some (Sample.segment 999998 4 250000)) [])
            (Sample.presentation 1000000
               (Sample.manifest (Some 40000%Q) (Some 30000%Q)))
            SegmentWindow.new with
    | Returns (Num x) => x == 969998 ∧ (x < 1000000 - 30000)%Q
    | _ => False
    end
  ∧ match SegmentWindow.rangeStart
            (Sample.source (Some (Sample.segment 100 4 26)) [])
            (Sample.presentation 100 (Sample.manifest None (Some 30000%Q)))
            SegmentWindow.new with
    | Returns (Num x) => x == 0 ∧ ¬ x == 85
    | _ => False
    end.
Proof. vm_compute. repeat split; discriminate. Qed.

(** ** Merging a new range into the window *)

Section Merge.

Import SegmentWindow.

Lemma last_cons_is_Some {A} (x : A) (l : list A) : is_Some (last (x :: l)).
Proof. apply last_is_Some. discriminate. Qed.

(** With segments already queued and a non-empty new range, [merge]
    raises exactly when the range is a single segment equal to the last
    queued one; otherwise the segments that survive the removal of the
    duplicate are appended. *)
Lemma merge_queued (w : t) (lastSegment first : Segment.t)
    (rest : list Segment.t) :
  last (segments w) = Some lastSegment →
  let added := if Segment.equal lastSegment first then rest else first :: rest in
  match added with
  | [] => merge (first :: rest) w = Throws TypeError
  | _ :: _ =>
      ∃ lastAdded msgs,
        last added = Some lastAdded
        ∧ merge (first :: rest) w
          = Returns (mk (segments w ++ added) (playIndex w)
                        (Some (default 0%nat (loadIndex w)))
                        (Some (Segment.end_ lastAdded)),
                     msgs)
  end.
Proof.
  intros Hlast added. unfold merge. rewrite Hlast. fold added.
  destruct added as [|a added'] eqn:Hadded; [reflexivity|].
  destruct (last_cons_is_Some a added') as [lastAdded HlastAdded].
  exists lastAdded. eexists. split; [exact HlastAdded|].
  simpl. rewrite HlastAdded. reflexivity.
Qed.

Lemma updateDynamic_merge (src : source) (p : presentation) (w : t)
    (from : number) :
  rangeStart src p w = Returns from →
  updateDynamic src p w
  = merge (segmentsInRange src from (Num (liveEdge p))) w.
Proof. intros Hfrom. unfold updateDynamic. by rewrite Hfrom. Qed.

End Merge.

(** C6. A dynamic update whose range [[rangeStart, liveEdge)] holds no
    segment returns with the window as it was: the segment list,
    [nextRangeStart], [loadIndex] and [playIndex] are unchanged, and a
    warning is printed. *)
Theorem C6_empty_range_is_a_no_op
    (src : SegmentWindow.source) (p : SegmentWindow.presentation)
    (w : SegmentWindow.t) (from : number) :
  SegmentWindow.rangeStart src p w = Returns from →
  SegmentWindow.segmentsInRange src from (Num (SegmentWindow.liveEdge p)) = [] →
  SegmentWindow.updateDynamic src p w
  = Returns (w, [consoleWarn SegmentWindow.noSegments]).
Proof.
  intros Hfrom Hnone.
  rewrite (updateDynamic_merge _ _ _ _ Hfrom), Hnone. reflexivity.
Qed.

Lemma C6_empty_range_is_a_no_op_witness :
  SegmentWindow.updateDynamic (Sample.source None [])
    (Sample.presentation 8 (Sample.manifest None (Some 30%Q))) Sample.queued
  = Returns (Sample.queued, [consoleWarn SegmentWindow.noSegments]).
Proof.
  apply (C6_empty_range_is_a_no_op _ _ _ (Num 8)); reflexivity.
Defined.

(** C9. A dynamic update of a window that already holds segments, over a
    range that produces at least one segment, raises a [TypeError] exactly
    when the range produces a single segment and that segment is
    value-equal to the last queued one: the duplicate is removed and the
    first element of the emptied list is read. In every other case the
    update returns. *)
Theorem C9_update_needs_a_surviving_segment
    (src : SegmentWindow.source) (p : SegmentWindow.presentation)
    (w : SegmentWindow.t) (from : number)
    (lastSegment first : Segment.t) (rest : list Segment.t) :
  SegmentWindow.rangeStart src p w = Returns from →
  last (SegmentWindow.segments w) = Some lastSegment →
  SegmentWindow.segmentsInRange src from (Num (SegmentWindow.liveEdge p))
  = first :: rest →
  (SegmentWindow.updateDynamic src p w = Throws TypeError
   ↔ rest = [] ∧ Segment.equal lastSegment first = true)
  ∧ (¬ (rest = [] ∧ Segment.equal lastSegment first = true) →
     ∃ w' msgs, SegmentWindow.updateDynamic src p w = Returns (w', msgs)).
Proof.
  intros Hfrom Hlast Hnew.
  rewrite (updateDynamic_merge _ _ _ _ Hfrom), Hnew.
  pose proof (merge_queued w lastSegment first rest Hlast) as Hmerge.
  cbv zeta in Hmerge.
  destruct (Segment.equal lastSegment first) eqn:Heq.
  - destruct rest as [|second rest'].
    + rewrite Hmerge. split; [by split | intros Hno; by destruct Hno].
    + destruct Hmerge as (lastAdded & msgs & _ & ->).
      split; [split; [discriminate | intros [? _]; discriminate] | eauto].
  - destruct Hmerge as (lastAdded & msgs & _ & ->).
    split; [split; [discriminate | intros [_ ?]; discriminate] | eauto].
Qed.

Lemma C9_update_needs_a_surviving_segment_witness :
  SegmentWindow.updateDynamic (Sample.source None [Sample.segment 4 4 2])
    (Sample.presentation 9 (Sample.manifest None (Some 30%Q))) Sample.queued
  = Throws TypeError.
Proof.
  apply (C9_update_needs_a_surviving_segment
           (Sample.source None [Sample.segment 4 4 2])
           (Sample.presentation 9 (Sample.manifest None (Some 30%Q)))
           Sample.queued (Num 8) (Sample.segment 4 4 2)
           (Sample.segment 4 4 2) []); by vm_compute.
Defined.

(** ** Download progression *)

Section DownloadProgression.

Import SegmentWindow Downloading.

Lemma state_pending (st : Segment.state) :
  st ≠ Segment.downloading →
  ¬ (Segment.code Segment.downloaded <= Segment.code st) →
  st = Segment.pending.
Proof. destruct st; simpl; intros; (done || lia). Qed.

Lemma url_state resolve (s : Segment.t) :
  Segment.state_ (Segment.url resolve s).2 = Segment.state_ s.
Proof. unfold Segment.url. by destruct (Segment.cachedUrl s). Qed.

(** [startDownload] either finds the segment unavailable and does
    nothing, or marks it as downloading and asks for its address once. *)
Lemma startDownload_cases env (i : nat) (s : Segment.t) (w : t) :
  (available env s = false ∧ startDownload env i s w = (w, []))
  ∨ (available env s = true
     ∧ ∃ u s',
         Segment.url (resolve env) (Segment.setState Segment.downloading s)
         = (u, s')
         ∧ Segment.state_ s' = Segment.downloading
         ∧ startDownload env i s w
           = (setSegments (<[i := s']> (segments w)) w, [getMedia u i])).
Proof.
  unfold startDownload.
  destruct (available env s); simpl; [right | by left].
  split; [reflexivity|].
  pose proof (url_state (resolve env)
                (Segment.setState Segment.downloading s)) as Hst.
  destruct (Segment.url _ _) as [u s']; simpl in Hst.
  exists u, s'. by repeat split.
Qed.

(** The paths through [downloadNextSegment] that return: nothing is
    downloaded; or the pending segment at [loadIndex] is considered; or
    the segment at [loadIndex] has finished, is not the last, and its
    successor is considered with [loadIndex] moved to it. *)
Lemma downloadNextSegment_cases env p c (w : t) c' w' e :
  downloadNextSegment env p c w = Returns (c', w', e) →
  (w' = w ∧ mediaRequests e = [] ∧ target w = None)
  ∨ (∃ i s,
       loadIndex w = Some i ∧ segments w !! i = Some s
       ∧ Segment.state_ s = Segment.pending
       ∧ target w = Some i
       ∧ startDownload env i s w = (w', e))
  ∨ (∃ i s next,
       loadIndex w = Some i ∧ segments w !! i = Some s
       ∧ Segment.state_ s ≠ Segment.pending
       ∧ segments w !! (i + 1)%nat = Some next
       ∧ target w = Some (i + 1)%nat
       ∧ startDownload env (i + 1) next (setLoadIndex (i + 1) w) = (w', e)).
Proof.
  unfold downloadNextSegment, target.
  destruct (loadIndex w) as [i|] eqn:Hli; simpl;
    [|intros [= <- <- <-]; left; auto].
  destruct (segments w !! i) as [s|] eqn:Hs; simpl; [|discriminate].
  case_bool_decide as Hdl; [intros [= <- <- <-]; left; auto|].
  case_bool_decide as Hdone.
  - case_bool_decide as Hend.
    + destruct (_ && _); [intros [= <- <- <-]; left; auto|].
      destruct (PresentationController.loadingManifest c) eqn:Hflag;
        [intros [= <- <- <-]; left; auto|].
      unfold PresentationController.loadManifest. rewrite Hflag.
      intros [= <- <- <-]; left; auto.
    + destruct (segments w !! (i + 1)%nat) as [next|] eqn:Hnext; simpl;
        [|discriminate].
      destruct (startDownload env (i + 1) next (setLoadIndex (i + 1) w))
        as [w2 e2] eqn:Hstart.
      intros [= <- <- <-]. right; right.
      exists i, s, next. repeat split; try done.
      intros Hp. rewrite Hp in Hdone. simpl in Hdone. lia.
  - destruct (startDownload env i s w) as [w2 e2] eqn:Hstart.
    intros [= <- <- <-]. right; left.
    exists i, s. repeat split; try done.
    by apply state_pending.
Qed.

(** *** The invariant of a run *)

Lemma consistent_advance (w : t) tr (i : nat) :
  consistent (Downloading.mk w tr) → loadIndex w = Some i →
  consistent (Downloading.mk (setLoadIndex (i + 1) w) tr).
Proof.
  intros [H1 H2 H3] Hli; simpl in *.
  split; simpl; [|exact H2|exact H3].
  intros j s Hj Hbeyond. apply (H1 j s Hj). rewrite Hli. simpl. lia.
Qed.

Lemma consistent_start (w : t) tr (i : nat) (s s' : Segment.t) :
  consistent (Downloading.mk w tr) → loadIndex w = Some i →
  segments w !! i = Some s → Segment.state_ s = Segment.pending →
  Segment.state_ s' = Segment.downloading →
  consistent
    (Downloading.mk (setSegments (<[i := s']> (segments w)) w) (tr ++ [i])).
Proof.
  intros [H1 H2 H3] Hli Hs Hpending Hs'; simpl in *.
  assert (Hfresh : i ∉ tr).
  { intros Hin. apply H3 in Hin as (s0 & Hs0 & Hne). congruence. }
  split; simpl.
  - rewrite Hli. simpl. intros j s0 Hj Hlt.
    rewrite list_lookup_insert_ne in Hj by lia.
    apply (H1 j s0 Hj). rewrite Hli. exact Hlt.
  - apply NoDup_app. split; [exact H2|]. split; [|apply NoDup_singleton].
    intros x Hx Hxi. apply list_elem_of_singleton in Hxi. by subst.
  - intros j. rewrite elem_of_app, list_elem_of_singleton.
    destruct (decide (j = i)) as [->|Hne].
    + split; [intros _|by right].
      exists s'. split; [|congruence].
      apply list_lookup_insert_eq. by eapply lookup_lt_Some.
    + rewrite list_lookup_insert_ne by done. rewrite H3.
      split; [intros [H|H]; [exact H | done] | by left].
Qed.

Lemma consistent_finish (w : t) tr (i : nat) (s : Segment.t) st :
  consistent (Downloading.mk w tr) →
  segments w !! i = Some s → Segment.state_ s = Segment.downloading →
  st = Segment.downloaded ∨ st = Segment.errored →
  consistent
    (Downloading.mk
       (setSegments (<[i := Segment.setState st s]> (segments w)) w) tr).
Proof.
  intros [H1 H2 H3] Hs Hdl Hst; simpl in *.
  split; simpl; [|exact H2|].
  - intros j s0 Hj Hbeyond.
    destruct (decide (j = i)) as [->|Hne].
    + specialize (H1 i s Hs Hbeyond). congruence.
    + rewrite list_lookup_insert_ne in Hj by done. by apply (H1 j).
  - intros j. rewrite H3.
    destruct (decide (j = i)) as [->|Hne].
    + rewrite list_lookup_insert_eq by (by eapply lookup_lt_Some).
      split; intros _.
      * eexists. split; [reflexivity|]. simpl. by destruct Hst as [-> | ->].
      * exists s. split; [exact Hs | congruence].
    + by rewrite list_lookup_insert_ne.
Qed.

(** What [merge] does to the window when it returns: nothing, or it
    appends some of the new segments and defines [loadIndex]. *)
Lemma merge_shape (new : list Segment.t) (w w' : t) msgs :
  merge new w = Returns (w', msgs) →
  Forall (λ s, Segment.state_ s = Segment.pending) new →
  w' = w
  ∨ ∃ added,
      Forall (λ s, Segment.state_ s = Segment.pending) added
      ∧ segments w' = segments w ++ added
      ∧ loadIndex w' = Some (default 0%nat (loadIndex w)).
Proof.
  unfold merge. destruct new as [|first rest]; [intros [= <- <-]; by left|].
  intros Hmerge Hnew. right.
  destruct (last (segments w)) as [lastSegment|] eqn:Hlast; simpl in Hmerge.
  - set (added := if Segment.equal lastSegment first then rest else first :: rest)
      in Hmerge.
    assert (Hadded : Forall (λ s, Segment.state_ s = Segment.pending) added).
    { subst added. destruct (Segment.equal _ _); [by inversion Hnew | exact Hnew]. }
    destruct (head added); simpl in Hmerge; [|discriminate].
    destruct (last added); simpl in Hmerge; [|discriminate].
    injection Hmerge as <- <-. by exists added.
  - apply last_None in Hlast.
    destruct (last (first :: rest)); simpl in Hmerge; [|discriminate].
    injection Hmerge as <- <-. exists (first :: rest). simpl.
    by rewrite Hlast.
Qed.

Lemma consistent_append (w w' : t) tr (added : list Segment.t) :
  consistent (Downloading.mk w tr) →
  Forall (λ s, Segment.state_ s = Segment.pending) added →
  segments w' = segments w ++ added →
  loadIndex w' = Some (default 0%nat (loadIndex w)) →
  consistent (Downloading.mk w' tr).
Proof.
  intros [H1 H2 H3] Hadded Hsegs Hli; simpl in *.
  assert (Hnew : ∀ j s, (segments w ++ added) !! j = Some s →
                        segments w !! j = Some s
                        ∨ Segment.state_ s = Segment.pending).
  { intros j s Hj. apply lookup_app_Some in Hj as [Hj|[_ Hj]]; [by left|].
    right. rewrite Forall_forall in Hadded. apply Hadded.
    by eapply list_elem_of_lookup_2. }
  split; simpl; [|exact H2|].
  - rewrite Hsegs, Hli. intros j s Hj Hbeyond.
    destruct (Hnew j s Hj) as [Hold|Hp]; [|exact Hp].
    apply (H1 j s Hold).
    destruct (loadIndex w); simpl in *; [exact Hbeyond | exact I].
  - intros j. rewrite H3, Hsegs. split.
    + intros (s & Hj & Hne). exists s. split; [|exact Hne].
      by apply lookup_app_l_Some.
    + intros (s & Hj & Hne). exists s. split; [|exact Hne].
      by destruct (Hnew j s Hj).
Qed.

(** *** Steps keep the invariant *)

Lemma not_requested (w : t) tr (j : nat) (s : Segment.t) :
  consistent (Downloading.mk w tr) →
  segments w !! j = Some s → Segment.state_ s = Segment.pending → j ∉ tr.
Proof.
  intros [_ _ H3] Hs Hp Hin; simpl in *.
  apply H3 in Hin as (s0 & Hs0 & Hne). congruence.
Qed.

(** A returning call of [downloadNextSegment] in a consistent world. *)
Lemma downloadNextSegment_progressed env p c (w : t) tr c' w' e :
  consistent (Downloading.mk w tr) →
  downloadNextSegment env p c w = Returns (c', w', e) →
  progressed env w tr w' e
  ∧ consistent (Downloading.mk w' (tr ++ mediaRequests e)).
Proof.
  intros Hinv Hcall.
  apply downloadNextSegment_cases in Hcall
    as [(-> & He & Htarget)
       |[(i & s & Hli & Hs & Hp & Htarget & Hstart)
        |(i & s & next & Hli & Hs & Hnp & Hnext & Htarget & Hstart)]].
  - split.
    + apply progressed_idle; [done | done |]. intros j s0. by rewrite Htarget.
    + by rewrite He, app_nil_r.
  - destruct (startDownload_cases env i s w)
      as [[Hav Heq]|(Hav & u & s' & Hurl & Hst & Heq)];
      rewrite Heq in Hstart; injection Hstart as <- <-.
    + split; [|by rewrite app_nil_r].
      apply progressed_idle; [done | done |].
      intros j s0. rewrite Htarget. intros [= <-]. rewrite Hs. by intros [= <-].
    + split; [|by eapply consistent_start].
      eapply progressed_started; try done.
      by eapply not_requested.
  - assert (Hpn : Segment.state_ next = Segment.pending).
    { destruct Hinv as [H1 _ _]; simpl in H1.
      apply (H1 (i + 1)%nat next Hnext). rewrite Hli. simpl. lia. }
    pose proof (consistent_advance w tr i Hinv Hli) as Hinv1.
    destruct (startDownload_cases env (i + 1) next (setLoadIndex (i + 1) w))
      as [[Hav Heq]|(Hav & u & s' & Hurl & Hst & Heq)];
      rewrite Heq in Hstart; injection Hstart as <- <-.
    + split; [|by rewrite app_nil_r].
      apply progressed_idle; [done | done |].
      intros j s0. rewrite Htarget. intros [= <-]. rewrite Hnext.
      by intros [= <-].
    + split; [|by eapply (consistent_start (setLoadIndex (i + 1) w))].
      eapply progressed_started; try done.
      by eapply not_requested.
Qed.

Lemma updateDynamic_shape src p (w w' : t) msgs :
  fresh src → updateDynamic src p w = Returns (w', msgs) →
  w' = w
  ∨ ∃ added,
      Forall (λ s, Segment.state_ s = Segment.pending) added
      ∧ segments w' = segments w ++ added
      ∧ loadIndex w' = Some (default 0%nat (loadIndex w)).
Proof.
  intros Hfresh. unfold updateDynamic.
  destruct (rangeStart src p w) as [from|]; simpl; [|discriminate].
  intros Hmerge. eapply merge_shape; [exact Hmerge | apply Hfresh].
Qed.

Lemma step_consistent l x y : consistent x → step l x y → consistent y.
Proof.
  intros Hinv Hstep. destruct Hstep.
  - by eapply downloadNextSegment_progressed.
  - by eapply consistent_finish.
  - match goal with H : updateDynamic _ _ _ = _ |- _ =>
      apply updateDynamic_shape in H as [->|(added & Hadded & Hsegs & Hli)]
    end; [done | | done].
    by eapply consistent_append.
Qed.

Lemma reachable_consistent x : reachable x → consistent x.
Proof.
  induction 1 as [|src p w Hfresh Hstatic|l x y _ IH Hstep].
  - split; simpl.
    + intros j s Hj. by rewrite lookup_nil in Hj.
    + constructor.
    + intros j. split; [intros Hin; by apply elem_of_nil in Hin|].
      intros (s & Hj & _). by rewrite lookup_nil in Hj.
  - unfold updateStatic in Hstatic.
    destruct (timelineDuration p) as [d|]; [|discriminate].
    injection Hstatic as <-.
    assert (Hall : ∀ j s, segmentsInRange src (Num 0) (Num d) !! j = Some s →
                          Segment.state_ s = Segment.pending).
    { intros j s Hj. specialize (Hfresh (Num 0) (Num d)).
      rewrite Forall_forall in Hfresh. apply Hfresh.
      by eapply list_elem_of_lookup_2. }
    split; simpl.
    + intros j s Hj _. by eapply Hall.
    + constructor.
    + intros j. split; [intros Hin; by apply elem_of_nil in Hin|].
      intros (s & Hj & Hne). by apply Hall in Hj.
  - by eapply step_consistent.
Qed.

(** Along every step of a run each segment keeps its place, and its
    state stays or moves along an edge of the state diagram. *)
Lemma step_moves l x y :
  consistent x → step l x y →
  ∀ j s, segments (window x) !! j = Some s →
         ∃ s', segments (window y) !! j = Some s'
               ∧ Segment.moves (Segment.state_ s) (Segment.state_ s').
Proof.
  intros Hinv Hstep. destruct Hstep; simpl; intros j s0 Hj.
  - match goal with H : downloadNextSegment _ _ _ _ = _ |- _ =>
      destruct (downloadNextSegment_progressed _ _ _ _ _ _ _ _ Hinv H)
        as [[Hsegs _ _|k s s' u _ Hk Hp _ _ Hst Hsegs _ _] _]
    end; rewrite Hsegs.
    + exists s0. split; [exact Hj | constructor].
    + destruct (decide (j = k)) as [->|Hne].
      * exists s'. split; [apply list_lookup_insert_eq; by eapply lookup_lt_Some|].
        assert (s0 = s) as -> by congruence.
        rewrite Hp, Hst. constructor.
      * exists s0. rewrite list_lookup_insert_ne by done.
        split; [exact Hj | constructor].
  - destruct (decide (j = i)) as [->|Hne].
    + eexists. split; [apply list_lookup_insert_eq; by eapply lookup_lt_Some|].
      assert (s0 = s) as -> by congruence.
      match goal with H : Segment.state_ s = _ |- _ => rewrite H end.
      simpl. match goal with H : _ ∨ _ |- _ => destruct H as [-> | ->] end;
        constructor.
    + exists s0. rewrite list_lookup_insert_ne by done.
      split; [exact Hj | constructor].
  - match goal with H : updateDynamic _ _ _ = _ |- _ =>
      apply updateDynamic_shape in H as [->|(added & _ & Hsegs & _)]
    end; [| |done].
    + exists s0. split; [exact Hj | constructor].
    + exists s0. rewrite Hsegs.
      split; [by apply lookup_app_l_Some | constructor].
Qed.

End DownloadProgression.

(** C4. Along every step of a run of a segment window (a call of
    [downloadNextSegment], the end of a download, a dynamic update), each
    queued segment keeps its place and its state stays or moves along
    pending → downloading → {downloaded, errored}; no segment is ever
    requested twice, and the requested segments are exactly those that
    have left the pending state. A call of [downloadNextSegment] leaves
    every segment that is not pending, one that is downloading in
    particular, as it is and requests nothing for it; when the segment it
    considers is available, that segment was pending, becomes downloading,
    and its address is handed to the downloader in the one request of the
    call. *)
Theorem C4_download_progression
    (l : Downloading.label) (x y : Downloading.world) :
  Downloading.reachable x → Downloading.step l x y →
  (∀ j s, SegmentWindow.segments (Downloading.window x) !! j = Some s →
          ∃ s', SegmentWindow.segments (Downloading.window y) !! j = Some s'
                ∧ Segment.moves (Segment.state_ s) (Segment.state_ s'))
  ∧ NoDup (Downloading.requested y)
  ∧ (∀ j, j ∈ Downloading.requested y
          ↔ ∃ s, SegmentWindow.segments (Downloading.window y) !! j = Some s
                 ∧ Segment.state_ s ≠ Segment.pending)
  ∧ (∀ env p c, l = Downloading.progress env p c →
       ∃ e,
         Downloading.requested y
         = Downloading.requested x ++ Downloading.mediaRequests e
         ∧ Downloading.progressed env (Downloading.window x)
             (Downloading.requested x) (Downloading.window y) e
         ∧ ∀ j s,
             SegmentWindow.segments (Downloading.window x) !! j = Some s →
             Segment.state_ s ≠ Segment.pending →
             (j ∉ Downloading.mediaRequests e)
             ∧ SegmentWindow.segments (Downloading.window y) !! j = Some s).
Proof.
  intros Hreach Hstep.
  pose proof (reachable_consistent x Hreach) as Hinv.
  pose proof (step_consistent l x y Hinv Hstep) as [_ Honce Haccounted].
  split; [by eapply step_moves|].
  split; [exact Honce|].
  split; [exact Haccounted|].
  intros env p c ->.
  inversion Hstep as [env' p' c0 w tr c' w' e Hcall| |]; subst; simpl in *.
  destruct (downloadNextSegment_progressed _ _ _ _ _ _ _ _ Hinv Hcall)
    as [Hprog _].
  exists e. split; [reflexivity|]. split; [exact Hprog|].
  intros j s Hj Hne.
  destruct Hprog as [Hsegs He _|k s0 s' u _ Hk Hp _ _ _ Hsegs -> _].
  - rewrite He, Hsegs. split; [apply not_elem_of_nil | exact Hj].
  - assert (Hjk : j ≠ k).
    { intros ->. congruence. }
    simpl. rewrite Hsegs, list_lookup_insert_ne by done.
    split; [|exact Hj].
    rewrite list_elem_of_singleton. done.
Qed.

Lemma C4_download_progression_witness :
  Downloading.reachable (Downloading.mk Sample.queued [])
  ∧ Downloading.step
      (Downloading.progress Sample.environment Sample.live Sample.controller)
      (Downloading.mk Sample.queued [])
      (Downloading.mk Sample.started [0%nat])
  ∧ NoDup [0%nat].
Proof.
  assert (Hfresh : Downloading.fresh Sample.liveSource).
  { intros a b. simpl. repeat constructor. }
  assert (Hreach : Downloading.reachable (Downloading.mk Sample.queued [])).
  { apply (Downloading.reachable_step
             (Downloading.update Sample.liveSource Sample.live)
             (Downloading.mk SegmentWindow.new [])).
    - apply Downloading.reachable_new.
    - apply (Downloading.step_update Sample.liveSource Sample.live
               SegmentWindow.new [] Sample.queued []); [exact Hfresh|].
      reflexivity. }
  assert (Hstep : Downloading.step
      (Downloading.progress Sample.environment Sample.live Sample.controller)
      (Downloading.mk Sample.queued [])
      (Downloading.mk Sample.started [0%nat])).
  { apply (Downloading.step_progress Sample.environment Sample.live
             Sample.controller Sample.queued [] Sample.controller
             Sample.started [getMedia "segment.m4s" 0]).
    reflexivity. }
  split; [exact Hreach|]. split; [exact Hstep|].
  exact (proj1 (proj2 (C4_download_progression _ _ _ Hreach Hstep))).
Defined.

(* ================================================================== *)
(** * Further properties of the modelled code *)
(* ================================================================== *)

(** ** SegmentTemplate *)

Section TemplateMethodProperties.

Import SegmentTemplate TemplateMethods.

Lemma inheritAttr_keeps {A} (v : A) (own a p : option A) :
  own = Some v → Model.inheritAttr (Model.inheritAttr own a) p = Some v.
Proof. by intros ->. Qed.

Lemma inheritAttr_settled {A} (x a p : option A) :
  Model.inheritAttr (Model.inheritAttr (Model.inheritAttr x a) p) a
  = Model.inheritAttr (Model.inheritAttr x a) p.
Proof. by destruct x, a, p. Qed.

Lemma inheritFrom_settled (d : t) (a p : option t) :
  inheritFrom a (inheritFrom p (inheritFrom a d))
  = inheritFrom p (inheritFrom a d).
Proof.
  destruct a as [a|]; [|reflexivity].
  destruct p as [p|]; [|exact (inheritFrom_again (Some a) d)].
  destruct d, a, p; unfold inheritFrom; simpl.
  by rewrite !inheritAttr_settled.
Qed.



End TemplateMethodProperties.

(** X1. [SegmentTemplate.setup] never replaces a value the template
    declares itself: each of the eight attributes that is declared on the
    template has the declared value after [setup], whatever the templates
    of the AdaptationSet and of the Period hold. *)
Theorem X1_setup_keeps_declared_values
    (declared : SegmentTemplate.t) (ofAdaptationSet ofPeriod : option SegmentTemplate.t) :
  let r := SegmentTemplate.setup declared ofAdaptationSet ofPeriod in
  (∀ v, SegmentTemplate.bitstreamSwitching declared = Some v →
        SegmentTemplate.bitstreamSwitching r = Some v)
  ∧ (∀ v, SegmentTemplate.initialization declared = Some v →
          SegmentTemplate.initialization r = Some v)
  ∧ (∀ v, SegmentTemplate.index declared = Some v →
          SegmentTemplate.index r = Some v)
  ∧ (∀ v, SegmentTemplate.media declared = Some v →
          SegmentTemplate.media r = Some v)
  ∧ (∀ v, SegmentTemplate.startNumber declared = Some v →
          SegmentTemplate.startNumber r = Some v)
  ∧ (∀ v, SegmentTemplate.timescale declared = Some v →
          SegmentTemplate.timescale r = Some v)
  ∧ (∀ v, SegmentTemplate.duration declared = Some v →
          SegmentTemplate.duration r = Some v)
  ∧ (∀ v, SegmentTemplate.presentationTimeOffset declared = Some v →
          SegmentTemplate.presentationTimeOffset r = Some v).
Proof.
  destruct (setup_precedence declared ofAdaptationSet ofPeriod)
    as (Hb & Hi & Hx & Hm & Hd).
  destruct (setup_defaulted declared ofAdaptationSet ofPeriod)
    as (Hs & Ht & Hp).
  cbv zeta in *.
  rewrite Hb, Hi, Hx, Hm, Hd, Hs, Ht, Hp.
  unfold SegmentTemplate.firstDeclared.
  repeat split; intros v Hv;
    first [by apply inheritAttr_keeps | by rewrite Hv].
Qed.

(** X2. [SegmentTemplate.setup] is idempotent: run again on its own
    result under the same ancestor templates, it changes no attribute. *)
Theorem X2_setup_idempotent
    (declared : SegmentTemplate.t) (ofAdaptationSet ofPeriod : option SegmentTemplate.t) :
  SegmentTemplate.setup
    (SegmentTemplate.setup declared ofAdaptationSet ofPeriod)
    ofAdaptationSet ofPeriod
  = SegmentTemplate.setup declared ofAdaptationSet ofPeriod.
Proof.
  apply setup_fixed.
  - apply fillDefaults_setup.
  - unfold SegmentTemplate.setup. apply inheritFrom_settled.
  - unfold SegmentTemplate.setup. apply inheritFrom_again.
Qed.



(** ** Dynamic updates of the window *)

Section DynamicUpdate.

Import SegmentWindow LiveWindow.

Lemma merge_returns (new : list Segment.t) (w w' : t) msgs :
  merge new w = Returns (w', msgs) →
  match last (appended w new) with
  | None => new = [] ∧ w' = w ∧ msgs = [consoleWarn noSegments]
  | Some lastAdded =>
      w' = mk (segments w ++ appended w new) (playIndex w)
              (Some (default 0%nat (loadIndex w)))
              (Some (Segment.end_ lastAdded))
      ∧ msgs = flagged w (appended w new)
  end.
Proof.
  unfold merge, appended, flagged.
  destruct new as [|first rest].
  { intros [= <- <-]. by destruct (last (segments w)). }
  destruct (last (segments w)) as [lastSegment|] eqn:Hlast; simpl.
  - destruct (if Segment.equal lastSegment first then rest else first :: rest)
      as [|a added] eqn:Hadded; simpl; [discriminate|].
    destruct (last_cons_is_Some a added) as [lastAdded HlastAdded].
    rewrite HlastAdded. simpl. by intros [= <- <-].
  - destruct (last_cons_is_Some first rest) as [lastAdded HlastAdded].
    rewrite HlastAdded. simpl. intros [= <- <-].
    apply last_None in Hlast. by rewrite Hlast.
Qed.

Lemma rangeStart_returns_merge src p (w w' : t) msgs :
  updateDynamic src p w = Returns (w', msgs) →
  ∃ from, rangeStart src p w = Returns from
          ∧ merge (segmentsInRange src from (Num (liveEdge p))) w
            = Returns (w', msgs).
Proof.
  unfold updateDynamic.
  destruct (rangeStart src p w) as [from|]; simpl; [eauto | discriminate].
Qed.

Lemma fallbackEdgeSegment_throws src p :
  throws (fallbackEdgeSegment src p)
  ↔ match contentAt src (liveEdge p) with
    | None => True
    | Some c =>
        if repeatSegment c then contentSegmentAt c (endTime p) = None
        else contentSegments c = []
    end.
Proof.
  unfold fallbackEdgeSegment.
  destruct (contentAt src (liveEdge p)) as [c|]; simpl; [|done].
  destruct (repeatSegment c).
  - destruct (contentSegmentAt c (endTime p)); simpl; intuition discriminate.
  - rewrite <- last_None.
    destruct (last (contentSegments c)); simpl; intuition discriminate.
Qed.

End DynamicUpdate.

(** X5. A dynamic update that returns only appends: the queued segments
    keep their places and [playIndex] its value. When it appends nothing
    the window is unchanged and the warning is printed; when it appends,
    [nextRangeStart] becomes the end of the last appended segment and
    [loadIndex] keeps its value, or becomes 0 when it was undefined. *)
Theorem X5_update_only_appends
    (src : SegmentWindow.source) (p : SegmentWindow.presentation)
    (w w' : SegmentWindow.t) (msgs : list call) :
  SegmentWindow.updateDynamic src p w = Returns (w', msgs) →
  ∃ added,
    SegmentWindow.segments w' = SegmentWindow.segments w ++ added
    ∧ SegmentWindow.playIndex w' = SegmentWindow.playIndex w
    ∧ match last added with
      | None => w' = w ∧ msgs = [consoleWarn SegmentWindow.noSegments]
      | Some lastAdded =>
          SegmentWindow.nextRangeStart w' = Some (Segment.end_ lastAdded)
          ∧ SegmentWindow.loadIndex w'
            = Some (default 0%nat (SegmentWindow.loadIndex w))
      end.
Proof.
  intros Hupdate.
  apply rangeStart_returns_merge in Hupdate as (from & _ & Hmerge).
  apply merge_returns in Hmerge.
  exists (LiveWindow.appended w (SegmentWindow.segmentsInRange src from
                        (Num (SegmentWindow.liveEdge p)))).
  destruct (last (LiveWindow.appended w _)) as [lastAdded|] eqn:Hlast.
  - destruct Hmerge as [-> _]. by simpl.
  - destruct Hmerge as (_ & -> & ->).
    apply last_None in Hlast. rewrite Hlast, app_nil_r. done.
Qed.

Lemma X5_update_only_appends_witness :
  ∃ added,
    SegmentWindow.segments Sample.queued
    = SegmentWindow.segments SegmentWindow.new ++ added.
Proof.
  destruct (X5_update_only_appends Sample.liveSource Sample.live
              SegmentWindow.new Sample.queued [] eq_refl)
    as (added & Hsegments & _).
  exists added. exact Hsegments.
Defined.

(** X6. With segments queued, a dynamic update that returns appends the
    new range without its first segment when that segment is value-equal
    to the last queued one, and the whole range otherwise; it prints the
    discontiguity error exactly when the first appended segment does not
    start at the end of the last queued one, and appends all the same. *)
Theorem X6_boundary_duplicate_and_discontiguity
    (src : SegmentWindow.source) (p : SegmentWindow.presentation)
    (w w' : SegmentWindow.t) (msgs : list call) (from : number)
    (lastSegment first : Segment.t) (rest : list Segment.t) :
  SegmentWindow.rangeStart src p w = Returns from →
  last (SegmentWindow.segments w) = Some lastSegment →
  SegmentWindow.segmentsInRange src from (Num (SegmentWindow.liveEdge p))
  = first :: rest →
  SegmentWindow.updateDynamic src p w = Returns (w', msgs) →
  let added := if Segment.equal lastSegment first then rest else first :: rest in
  SegmentWindow.segments w' = SegmentWindow.segments w ++ added
  ∧ ∃ firstAdded,
      head added = Some firstAdded
      ∧ (Segment.end_ lastSegment == Segment.start firstAdded → msgs = [])
      ∧ (¬ Segment.end_ lastSegment == Segment.start firstAdded →
         msgs = [consoleError SegmentWindow.discontiguous]).
Proof.
  intros Hfrom Hlast Hnew Hupdate. cbv zeta.
  rewrite (updateDynamic_merge _ _ _ _ Hfrom), Hnew in Hupdate.
  apply merge_returns in Hupdate.
  unfold LiveWindow.appended, LiveWindow.flagged in Hupdate.
  rewrite Hlast in Hupdate.
  destruct (if Segment.equal lastSegment first then rest else first :: rest)
    as [|firstAdded added'] eqn:Hadded.
  { simpl in Hupdate. by destruct Hupdate. }
  destruct (last (firstAdded :: added')) as [lastAdded|];
    [|by destruct Hupdate].
  destruct Hupdate as [-> ->]. split; [reflexivity|].
  exists firstAdded. split; [reflexivity|]. simpl.
  destruct (Qeq_bool _ _) eqn:Heq.
  - split; [done|]. intros Hne. apply Qeq_bool_iff in Heq. contradiction.
  - split; [|done]. intros Hq. apply Qeq_bool_iff in Hq. congruence.
Qed.

Lemma X6_boundary_duplicate_and_discontiguity_witness :
  SegmentWindow.segments
    (SegmentWindow.mk
       (SegmentWindow.segments Sample.queued ++ [Sample.segment 9 4 3])
       None (Some 0%nat) (Some (9 + 4)%Q))
  = SegmentWindow.segments Sample.queued ++ [Sample.segment 9 4 3].
Proof.
  exact (proj1 (X6_boundary_duplicate_and_discontiguity
                  (Sample.source None [Sample.segment 4 4 2; Sample.segment 9 4 3])
                  (Sample.presentation 14 (Sample.manifest None (Some 30%Q)))
                  Sample.queued _ [consoleError SegmentWindow.discontiguous]
                  (Num 8) (Sample.segment 4 4 2) (Sample.segment 4 4 2)
                  [Sample.segment 9 4 3] eq_refl eq_refl eq_refl eq_refl)).
Defined.

(** X7. The choice of the range start raises exactly on a first update
    ([nextRangeStart] undefined) for which no segment covers the live edge
    and the fallback finds none either: the source has no content at the
    live edge, or the content ends in a repeated segment and has no
    segment at the presentation's end time, or it does not and has no
    segment at all. On later updates it never raises. *)
Theorem X7_range_start_raises_without_anchor
    (src : SegmentWindow.source) (p : SegmentWindow.presentation)
    (w : SegmentWindow.t) :
  throws (SegmentWindow.rangeStart src p w)
  ↔ SegmentWindow.nextRangeStart w = None
    ∧ SegmentWindow.segmentAt src (SegmentWindow.liveEdge p) = None
    ∧ match SegmentWindow.contentAt src (SegmentWindow.liveEdge p) with
      | None => True
      | Some c =>
          if SegmentWindow.repeatSegment c
          then SegmentWindow.contentSegmentAt c (SegmentWindow.endTime p) = None
          else SegmentWindow.contentSegments c = []
      end.
Proof.
  unfold SegmentWindow.rangeStart.
  destruct (SegmentWindow.nextRangeStart w) as [r|]; simpl;
    [intuition discriminate|].
  destruct (SegmentWindow.segmentAt src (SegmentWindow.liveEdge p)) as [e|];
    simpl; [intuition discriminate|].
  rewrite <- fallbackEdgeSegment_throws.
  destruct (SegmentWindow.fallbackEdgeSegment src p); simpl; intuition.
Qed.

(** X8. On a first update with the edge segment found, a manifest that
    declares no [timeShiftBufferDepth] makes the start of the range [NaN],
    whatever the suggested delay: the range asked of the source is
    [[NaN, liveEdge)]. *)
Theorem X8_no_timeshift_depth_gives_NaN
    (src : SegmentWindow.source) (p : SegmentWindow.presentation)
    (w : SegmentWindow.t) (edge : Segment.t) :
  SegmentWindow.nextRangeStart w = None →
  SegmentWindow.segmentAt src (SegmentWindow.liveEdge p) = Some edge →
  Manifest.timeShiftBufferDepth (SegmentWindow.manifest p) = None →
  SegmentWindow.rangeStart src p w = Returns NaN
  ∧ SegmentWindow.updateDynamic src p w
    = SegmentWindow.merge
        (SegmentWindow.segmentsInRange src NaN (Num (SegmentWindow.liveEdge p))) w.
Proof.
  intros Hfirst Hedge Hdepth.
  assert (Hstart : SegmentWindow.rangeStart src p w = Returns NaN).
  { unfold SegmentWindow.rangeStart. rewrite Hfirst, Hedge. simpl.
    unfold SegmentWindow.firstRangeStart. rewrite Hdepth. simpl.
    by destruct (negb _). }
  split; [exact Hstart|].
  by apply updateDynamic_merge.
Qed.

Lemma X8_no_timeshift_depth_gives_NaN_witness :
  SegmentWindow.rangeStart
    (Sample.source (Some (Sample.segment 100 4 26)) [])
    (Sample.presentation 100 (Sample.manifest (Some 10%Q) None))
    SegmentWindow.new
  = Returns NaN.
Proof.
  exact (proj1 (X8_no_timeshift_depth_gives_NaN
                  (Sample.source (Some (Sample.segment 100 4 26)) [])
                  (Sample.presentation 100 (Sample.manifest (Some 10%Q) None))
                  SegmentWindow.new (Sample.segment 100 4 26)
                  eq_refl eq_refl eq_refl)).
Defined.

(** ** Download progression, for every window *)

Section ProgressionCalls.

Import SegmentWindow Downloading LiveWindow.

Lemma startDownload_frame env (i : nat) (s : Segment.t) (w w' : t) e :
  segments w !! i = Some s →
  startDownload env i s w = (w', e) →
  loadIndex w' = loadIndex w ∧ playIndex w' = playIndex w
  ∧ nextRangeStart w' = nextRangeStart w
  ∧ ∃ s', segments w' = <[i := s']> (segments w)
          ∧ Segment.start s' = Segment.start s
          ∧ Segment.duration s' = Segment.duration s
          ∧ Segment.number s' = Segment.number s.
Proof.
  intros Hs Hstart.
  destruct (startDownload_cases env i s w)
    as [[_ Heq]|(_ & u & s' & Hurl & _ & Heq)];
    rewrite Heq in Hstart; injection Hstart as <- <-.
  - repeat split. exists s. by rewrite list_insert_id.
  - repeat split. exists s'. split; [reflexivity|].
    unfold Segment.url in Hurl. simpl in Hurl.
    destruct (Segment.cachedUrl s); injection Hurl as <- <-; done.
Qed.

(** A returning call moves [loadIndex] by at most one place, past a
    finished segment, and rewrites at most the segment it considers. *)
Lemma downloadNextSegment_frame env p c (w : t) c' w' e :
  downloadNextSegment env p c w = Returns (c', w', e) →
  playIndex w' = playIndex w ∧ nextRangeStart w' = nextRangeStart w
  ∧ (loadIndex w' = loadIndex w
     ∨ ∃ i s, loadIndex w = Some i ∧ segments w !! i = Some s
              ∧ finished s = true ∧ loadIndex w' = Some (i + 1)%nat)
  ∧ (segments w' = segments w
     ∨ ∃ j s s', loadIndex w' = Some j ∧ segments w !! j = Some s
                 ∧ segments w' = <[j := s']> (segments w)
                 ∧ Segment.start s' = Segment.start s
                 ∧ Segment.duration s' = Segment.duration s
                 ∧ Segment.number s' = Segment.number s).
Proof.
  intros Hcall.
  apply downloadNextSegment_cases in Hcall
    as [(-> & _ & _)
       |[(i & s & Hli & Hs & _ & _ & Hstart)
        |(i & s & next & Hli & Hs & Hnp & Hnext & Htarget & Hstart)]].
  - repeat split; by left.
  - destruct (startDownload_frame _ _ _ _ _ _ Hs Hstart)
      as (Hl & Hp & Hn & s' & Hsegs & ? & ? & ?).
    repeat split; [done | done | by left |].
    right. exists i, s, s'. rewrite Hl. done.
  - assert (Hfin : finished s = true).
    { unfold target in Htarget. rewrite Hli in Htarget. simpl in Htarget.
      rewrite Hs in Htarget. simpl in Htarget.
      unfold finished. apply bool_decide_eq_true.
      repeat case_bool_decide; try done.
      injection Htarget. lia. }
    destruct (startDownload_frame _ _ _ (setLoadIndex (i + 1) w) _ _ Hnext Hstart)
      as (Hl & Hp & Hn & s' & Hsegs & ? & ? & ?).
    repeat split; [done | done | |].
    + right. exists i, s. by rewrite Hl.
    + right. exists (i + 1)%nat, next, s'. by rewrite Hl.
Qed.

Lemma downloadNextSegment_throws env p c (w : t) :
  throws (downloadNextSegment env p c w)
  ↔ ∃ i, loadIndex w = Some i ∧ (length (segments w) ≤ i)%nat.
Proof.
  unfold downloadNextSegment.
  destruct (loadIndex w) as [i|]; [|split; [intros [] | by intros (? & ? & _)]].
  destruct (segments w !! i) as [s|] eqn:Hs; simpl.
  - pose proof (lookup_lt_Some _ _ _ Hs) as Hlt.
    split; [|intros (? & [= <-] & ?); lia].
    intros Hthrows. exfalso. revert Hthrows.
    case_bool_decide; [done|].
    case_bool_decide.
    + case_bool_decide as Hend.
      * destruct (_ && _); [done|].
        destruct (PresentationController.loadingManifest c); [done|].
        by destruct (PresentationController.loadManifest c).
      * destruct (lookup_lt_is_Some_2 (segments w) (i + 1)) as [next Hnext];
          [lia|].
        rewrite Hnext. simpl.
        by destruct (startDownload env (i + 1) next (setLoadIndex (i + 1) w)).
    + by destruct (startDownload env i s w).
  - apply lookup_ge_None in Hs. split; [eauto | done].
Qed.

End ProgressionCalls.

(** X9. [downloadNextSegment] raises exactly when [loadIndex] is defined
    and points past the end of the segment list, and what it raises then
    is the [TypeError] of reading the state of an undefined segment. *)
Theorem X9_download_raises_only_out_of_range
    (env : SegmentWindow.environment) (p : SegmentWindow.presentation)
    (c : PresentationController.t) (w : SegmentWindow.t) :
  (throws (SegmentWindow.downloadNextSegment env p c w)
   ↔ ∃ i, SegmentWindow.loadIndex w = Some i
          ∧ (length (SegmentWindow.segments w) ≤ i)%nat)
  ∧ (throws (SegmentWindow.downloadNextSegment env p c w) →
     SegmentWindow.downloadNextSegment env p c w = Throws TypeError).
Proof.
  split; [apply downloadNextSegment_throws|].
  intros Hthrows.
  apply downloadNextSegment_throws in Hthrows as Hrange.
  destruct Hrange as (i & Hli & Hlen).
  apply lookup_ge_None in Hlen.
  unfold SegmentWindow.downloadNextSegment. by rewrite Hli, Hlen.
Qed.

(** X10. A returning call of [downloadNextSegment] keeps [playIndex] and
    [nextRangeStart], moves [loadIndex] not at all or by one place past a
    finished segment, and changes at most the segment at the resulting
    [loadIndex], whose start, duration and number stay as they were; the
    number of queued segments does not change. *)
Theorem X10_download_call_frame
    (env : SegmentWindow.environment) (p : SegmentWindow.presentation)
    (c c' : PresentationController.t) (w w' : SegmentWindow.t) (e : list call) :
  SegmentWindow.downloadNextSegment env p c w = Returns (c', w', e) →
  SegmentWindow.playIndex w' = SegmentWindow.playIndex w
  ∧ SegmentWindow.nextRangeStart w' = SegmentWindow.nextRangeStart w
  ∧ length (SegmentWindow.segments w') = length (SegmentWindow.segments w)
  ∧ (SegmentWindow.loadIndex w' = SegmentWindow.loadIndex w
     ∨ ∃ i s, SegmentWindow.loadIndex w = Some i
              ∧ SegmentWindow.segments w !! i = Some s
              ∧ LiveWindow.finished s = true
              ∧ SegmentWindow.loadIndex w' = Some (i + 1)%nat)
  ∧ ∀ j s, SegmentWindow.segments w !! j = Some s →
           ∃ s', SegmentWindow.segments w' !! j = Some s'
                 ∧ Segment.start s' = Segment.start s
                 ∧ Segment.duration s' = Segment.duration s
                 ∧ Segment.number s' = Segment.number s
                 ∧ (SegmentWindow.loadIndex w' ≠ Some j → s' = s).
Proof.
  intros Hcall.
  destruct (downloadNextSegment_frame _ _ _ _ _ _ _ Hcall)
    as (Hplay & Hnext & Hload & Hsegs).
  split; [exact Hplay|]. split; [exact Hnext|].
  split.
  { destruct Hsegs as [->|(j & s & s' & _ & _ & -> & _)];
      [done | apply length_insert]. }
  split; [exact Hload|].
  intros j s Hj.
  destruct Hsegs as [->|(k & s0 & s' & Hk & Hs0 & -> & Hst & Hdu & Hnu)].
  - by exists s.
  - destruct (decide (j = k)) as [->|Hne].
    + exists s'. assert (s0 = s) as -> by congruence.
      rewrite list_lookup_insert_eq by (by eapply lookup_lt_Some).
      repeat split; done.
    + exists s. by rewrite list_lookup_insert_ne.
Qed.

Lemma X10_download_call_frame_witness :
  length (SegmentWindow.segments Sample.started)
  = length (SegmentWindow.segments Sample.queued).
Proof.
  exact (proj1 (proj2 (proj2
    (X10_download_call_frame Sample.environment Sample.live Sample.controller
       Sample.controller Sample.queued Sample.started
       [getMedia "segment.m4s" 0] eq_refl)))).
Defined.

(** X11. A returning call of [downloadNextSegment] asks for the manifest
    exactly when the segment at [loadIndex] has finished, is the last one
    queued, does not reach a declared presentation duration, and no
    manifest load is in flight; it then warns that the queue has run
    empty, asks once, raises the [loadingManifest] flag and leaves the
    window as it is. In every other case the controller is unchanged. *)
Theorem X11_reload_when_queue_runs_empty
    (env : SegmentWindow.environment) (p : SegmentWindow.presentation)
    (c c' : PresentationController.t) (w w' : SegmentWindow.t) (e : list call) :
  SegmentWindow.downloadNextSegment env p c w = Returns (c', w', e) →
  (ManifestLoading.manifestRequests e = 1%nat
   ↔ ∃ i s, SegmentWindow.loadIndex w = Some i
            ∧ SegmentWindow.segments w !! i = Some s
            ∧ LiveWindow.finished s = true
            ∧ (i + 1)%nat = length (SegmentWindow.segments w)
            ∧ LiveWindow.endOfStream p s = false
            ∧ PresentationController.loadingManifest c = false)
  ∧ (ManifestLoading.manifestRequests e = 1%nat →
     e = [consoleWarn SegmentWindow.queueRunEmpty;
          getMPD (PresentationController.url c)]
     ∧ w' = w
     ∧ PresentationController.loadingManifest c' = true)
  ∧ (ManifestLoading.manifestRequests e ≠ 1%nat → c' = c).
Proof.
  unfold SegmentWindow.downloadNextSegment, LiveWindow.finished,
    LiveWindow.endOfStream.
  destruct (SegmentWindow.loadIndex w) as [i|] eqn:Hli.
  2: { intros [= <- <- <-]. simpl. repeat split; try done.
       by intros (? & ? & ? & _). }
  destruct (SegmentWindow.segments w !! i) as [s|] eqn:Hs; simpl;
    [|discriminate].
  case_bool_decide as Hdl.
  { intros [= <- <- <-]. simpl. repeat split; try done.
    intros (i0 & s0 & [= <-] & Hs0 & Hfin & _).
    assert (s0 = s) as -> by congruence.
    apply bool_decide_eq_true in Hfin. rewrite Hdl in Hfin. simpl in Hfin. lia. }
  case_bool_decide as Hfin.
  - case_bool_decide as Hlast.
    + destruct (_ && _) eqn:Hend.
      { intros [= <- <- <-]. simpl. repeat split; try done.
        intros (i0 & s0 & [= <-] & Hs0 & _ & _ & Hend' & _).
        assert (s0 = s) as -> by congruence. congruence. }
      destruct (PresentationController.loadingManifest c) eqn:Hflag.
      { intros [= <- <- <-]. simpl. repeat split; try done.
        by intros (i0 & s0 & _ & _ & _ & _ & _ & ?). }
      unfold PresentationController.loadManifest. rewrite Hflag.
      intros [= <- <- <-]. simpl. repeat split; try done.
      intros _. exists i, s.
      repeat split; try done. by apply bool_decide_eq_true.
    + destruct (SegmentWindow.segments w !! (i + 1)%nat) as [next|]; simpl;
        [|discriminate].
      pose proof (startDownload_quiet env (i + 1) next
                    (SegmentWindow.setLoadIndex (i + 1) w)) as Hq.
      destruct (SegmentWindow.startDownload _ _ _ _) as [w2 e2].
      intros [= <- <- <-]. simpl in Hq. rewrite Hq.
      repeat split; try done.
      intros (i0 & s0 & [= <-] & _ & _ & Hlast' & _). done.
  - pose proof (startDownload_quiet env i s w) as Hq.
    destruct (SegmentWindow.startDownload _ _ _ _) as [w2 e2].
    intros [= <- <- <-]. simpl in Hq. rewrite Hq.
    repeat split; try done.
    intros (i0 & s0 & [= <-] & Hs0 & Hfin' & _).
    assert (s0 = s) as -> by congruence.
    by apply bool_decide_eq_true in Hfin'.
Qed.

Lemma X11_reload_when_queue_runs_empty_witness :
  ManifestLoading.manifestRequests
    [consoleWarn SegmentWindow.queueRunEmpty; getMPD "manifest.mpd"] = 1%nat
  ∧ PresentationController.loadingManifest
      (PresentationController.loadManifest Sample.controller).1 = true.
Proof.
  pose proof (X11_reload_when_queue_runs_empty Sample.environment Sample.live
                Sample.controller
                (PresentationController.loadManifest Sample.controller).1
                Sample.drained Sample.drained
                [consoleWarn SegmentWindow.queueRunEmpty; getMPD "manifest.mpd"]
                eq_refl)
    as (_ & Hasked & _).
  split; [reflexivity|].
  exact (proj2 (proj2 (Hasked eq_refl))).
Defined.

(** X12. After a call of [downloadNextSegment] that asked the downloader
    for a segment, a further call, under any controller, presentation and
    availability, does nothing: it returns the controller and the window
    as they are and makes no call. *)
Theorem X12_second_call_waits
    (env : SegmentWindow.environment) (p : SegmentWindow.presentation)
    (c c1 : PresentationController.t) (w w1 : SegmentWindow.t) (e1 : list call) :
  SegmentWindow.downloadNextSegment env p c w = Returns (c1, w1, e1) →
  Downloading.mediaRequests e1 ≠ [] →
  ∀ env' p' c',
    SegmentWindow.downloadNextSegment env' p' c' w1 = Returns (c', w1, []).
Proof.
  intros Hcall Hasked env' p' c'.
  assert (Hwait : ∃ j s', SegmentWindow.loadIndex w1 = Some j
                          ∧ SegmentWindow.segments w1 !! j = Some s'
                          ∧ Segment.state_ s' = Segment.downloading).
  { apply downloadNextSegment_cases in Hcall
      as [(_ & He & _)
         |[(i & s & Hli & Hs & _ & _ & Hstart)
          |(i & s & next & Hli & Hs & _ & Hnext & _ & Hstart)]];
      [done | |].
    - destruct (startDownload_cases env i s w)
        as [[_ Heq]|(_ & u & s' & _ & Hst & Heq)];
        rewrite Heq in Hstart; injection Hstart as <- <-; [done|].
      exists i, s'. simpl. split; [exact Hli|]. split; [|exact Hst].
      apply list_lookup_insert_eq. by eapply lookup_lt_Some.
    - destruct (startDownload_cases env (i + 1) next
                  (SegmentWindow.setLoadIndex (i + 1) w))
        as [[_ Heq]|(_ & u & s' & _ & Hst & Heq)];
        rewrite Heq in Hstart; injection Hstart as <- <-; [done|].
      exists (i + 1)%nat, s'. simpl. split; [reflexivity|]. split; [|exact Hst].
      apply list_lookup_insert_eq. by eapply lookup_lt_Some. }
  destruct Hwait as (j & s' & Hli & Hs & Hst).
  unfold SegmentWindow.downloadNextSegment. rewrite Hli, Hs. simpl.
  by rewrite bool_decide_eq_true_2.
Qed.

Lemma X12_second_call_waits_witness :
  SegmentWindow.downloadNextSegment Sample.environment Sample.live
    Sample.controller Sample.started
  = Returns (Sample.controller, Sample.started, []).
Proof.
  apply (X12_second_call_waits Sample.environment Sample.live
           Sample.controller Sample.controller Sample.queued Sample.started
           [getMedia "segment.m4s" 0]); [reflexivity | discriminate].
Defined.

(** X13. A static update over a presentation of known duration whose
    source yields no segment still sets [loadIndex] to 0, and every call
    of [downloadNextSegment] on the resulting window raises a
    [TypeError]. *)
Theorem X13_static_update_without_segments
    (src : SegmentWindow.source) (p : SegmentWindow.presentation)
    (w : SegmentWindow.t) (d : Q) :
  SegmentWindow.timelineDuration p = Some d →
  SegmentWindow.segmentsInRange src (Num 0) (Num d) = [] →
  ∃ w', SegmentWindow.updateStatic src p w = Returns w'
        ∧ SegmentWindow.loadIndex w' = Some 0%nat
        ∧ ∀ env p' c,
            SegmentWindow.downloadNextSegment env p' c w' = Throws TypeError.
Proof.
  intros Hd Hnone. unfold SegmentWindow.updateStatic. rewrite Hd, Hnone.
  eexists. split; [reflexivity|]. split; [reflexivity|].
  intros env p' c. reflexivity.
Qed.

Lemma X13_static_update_without_segments_witness :
  ∃ w', SegmentWindow.updateStatic (Sample.source None []) (Sample.static 10)
          SegmentWindow.new = Returns w'
        ∧ SegmentWindow.downloadNextSegment Sample.environment
            (Sample.static 10) Sample.controller w' = Throws TypeError.
Proof.
  destruct (X13_static_update_without_segments (Sample.source None [])
              (Sample.static 10) SegmentWindow.new 10 eq_refl eq_refl)
    as (w' & Hw' & _ & Hraise).
  exists w'. split; [exact Hw' | apply Hraise].
Defined.

(** ** Runs of a live window *)

Section LiveRuns.

Import SegmentWindow Downloading LiveWindow.

Lemma last_insert_end (l : list Segment.t) (i : nat) (s s' : Segment.t) :
  l !! i = Some s →
  Segment.start s' = Segment.start s →
  Segment.duration s' = Segment.duration s →
  Segment.end_ <$> last (<[i := s']> l) = Segment.end_ <$> last l.
Proof.
  intros Hs Hstart Hduration.
  rewrite <- !fmap_last, list_fmap_insert.
  f_equal. apply list_insert_id.
  rewrite list_lookup_fmap, Hs. simpl.
  unfold Segment.end_. by rewrite Hstart, Hduration.
Qed.

Lemma bounded_update src p (w w' : t) msgs :
  bounded w → updateDynamic src p w = Returns (w', msgs) → bounded w'.
Proof.
  intros [Hwithin Hend] Hupdate.
  apply rangeStart_returns_merge in Hupdate as (from & _ & Hmerge).
  apply merge_returns in Hmerge.
  destruct (last (appended w _)) as [lastAdded|] eqn:Hlast.
  - destruct Hmerge as [-> _].
    assert (Hlen : (0 < length (appended w
                      (segmentsInRange src from (Num (liveEdge p)))))%nat).
    { destruct (appended w _); [discriminate | simpl; lia]. }
    split; simpl.
    + rewrite length_app.
      destruct (loadIndex w); simpl; lia.
    + by rewrite last_app, Hlast.
  - by destruct Hmerge as (_ & -> & _).
Qed.

Lemma bounded_progress env p c (w : t) c' w' e :
  bounded w → downloadNextSegment env p c w = Returns (c', w', e) →
  bounded w'.
Proof.
  intros [Hwithin Hend] Hcall.
  apply downloadNextSegment_cases in Hcall
    as [(-> & _ & _)
       |[(i & s & Hli & Hs & _ & _ & Hstart)
        |(i & s & next & Hli & Hs & _ & Hnext & _ & Hstart)]].
  - by split.
  - destruct (startDownload_frame _ _ _ _ _ _ Hs Hstart)
      as (Hl & _ & Hn & s' & Hsegs & Hst & Hdu & _).
    split.
    + rewrite Hl, Hli, Hsegs, length_insert. by eapply lookup_lt_Some.
    + rewrite Hn, Hsegs, Hend. symmetry. by eapply last_insert_end.
  - destruct (startDownload_frame _ _ _ (setLoadIndex (i + 1) w) _ _ Hnext Hstart)
      as (Hl & _ & Hn & s' & Hsegs & Hst & Hdu & _).
    simpl in Hl, Hn, Hsegs.
    split.
    + rewrite Hl, Hsegs, length_insert. by eapply lookup_lt_Some.
    + rewrite Hn, Hsegs, Hend. symmetry. by eapply last_insert_end.
Qed.

Lemma bounded_finish (w : t) (i : nat) (s : Segment.t) st :
  bounded w → segments w !! i = Some s →
  bounded (setSegments (<[i := Segment.setState st s]> (segments w)) w).
Proof.
  intros [Hwithin Hend] Hs. split; simpl.
  - destruct (loadIndex w); [by rewrite length_insert|].
    rewrite Hwithin in Hs. by rewrite lookup_nil in Hs.
  - rewrite Hend. symmetry. by eapply last_insert_end.
Qed.

Lemma run_bounded x : run x → bounded (window x).
Proof.
  induction 1 as [|l x y _ IH Hstep].
  - by split.
  - destruct Hstep; simpl in *.
    + by eapply bounded_progress.
    + by eapply bounded_finish.
    + by eapply bounded_update.
Qed.

End LiveRuns.

(** X14. In every run of a window that starts from the constructor and is
    only updated dynamically, [loadIndex] is defined exactly when segments
    are queued and points at one of them, [nextRangeStart] is the end of
    the last queued segment, and [downloadNextSegment] never raises. *)
Theorem X14_live_window_stays_in_range (x : Downloading.world) :
  LiveWindow.run x →
  LiveWindow.bounded (Downloading.window x)
  ∧ ∀ env p c,
      ∃ c' w' e,
        SegmentWindow.downloadNextSegment env p c (Downloading.window x)
        = Returns (c', w', e).
Proof.
  intros Hrun. pose proof (run_bounded x Hrun) as Hb.
  split; [exact Hb|].
  intros env p c.
  pose proof (downloadNextSegment_throws env p c (Downloading.window x)) as Hthrows.
  destruct (SegmentWindow.downloadNextSegment env p c (Downloading.window x))
    as [[[c' w'] e]|err]; [eauto|].
  exfalso. destruct Hthrows as [Hthrows _].
  destruct (Hthrows I) as (i & Hli & Hlen).
  destruct Hb as [Hwithin _]. rewrite Hli in Hwithin. lia.
Qed.

Lemma X14_live_window_stays_in_range_witness :
  LiveWindow.run (Downloading.mk Sample.queued [])
  ∧ LiveWindow.bounded Sample.queued.
Proof.
  assert (Hfresh : Downloading.fresh Sample.liveSource).
  { intros a b. simpl. repeat constructor. }
  assert (Hrun : LiveWindow.run (Downloading.mk Sample.queued [])).
  { apply (LiveWindow.run_step
             (Downloading.update Sample.liveSource Sample.live)
             (Downloading.mk SegmentWindow.new [])).
    - apply LiveWindow.run_new.
    - apply (Downloading.step_update Sample.liveSource Sample.live
               SegmentWindow.new [] Sample.queued []); [exact Hfresh|].
      reflexivity. }
  split; [exact Hrun|].
  exact (proj1 (X14_live_window_stays_in_range _ Hrun)).
Defined.

(** ** Preparing the sources *)

Section PreparingSources.

Import Preparation.

Variable canPlayType : string → string.
Variable createBuffer : Source.t → Source.t * option error.
Variable bufferCreated : Z.

#[local] Abbreviation loop := (createBuffers canPlayType createBuffer).
#[local] Abbreviation created :=
  (λ s : Source.t, Source.state s = bufferCreated).
#[local] Abbreviation usableFor := (usable canPlayType createBuffer).

(** The content types in the Map after the loop: those in it before, and
    those of the usable sources. *)
Lemma createBuffers_types (sources : list Source.t) :
  (∀ s, Source.contentType (createBuffer s).1 = Source.contentType s) →
  ∀ (types : gmap string Source.t) (k : string),
    is_Some ((loop sources types).1.2 !! k)
    ↔ is_Some (types !! k) ∨ Exists (usableFor k) sources.
Proof.
  intros Hkeeps.
  induction sources as [|s rest IH]; intros types k; simpl.
  { rewrite Exists_nil. tauto. }
  rewrite Exists_cons. unfold usable at 1.
  destruct (String.eqb (canPlayType (Source.mseType s)) EmptyString) eqn:Hplay.
  { specialize (IH types k).
    destruct (loop rest types) as [[r t] e]; simpl in *.
    apply String.eqb_eq in Hplay. rewrite IH. tauto. }
  apply String.eqb_neq in Hplay.
  case_bool_decide as Hhas.
  { specialize (IH types k).
    destruct (loop rest types) as [[r t] e]; simpl in *.
    rewrite IH. split; [tauto|].
    intros [?|[(<- & _)|?]]; tauto. }
  pose proof (Hkeeps s) as Hct.
  destruct (createBuffer s) as [s' [err|]] eqn:Hcb; simpl in Hct.
  - specialize (IH types k).
    destruct (loop rest types) as [[r t] e]; simpl in *.
    rewrite IH. split; [tauto|].
    intros [?|[(_ & _ & ?)|?]]; [tauto | done | tauto].
  - specialize (IH (<[Source.contentType s' := s']> types) k).
    destruct (loop rest _) as [[r t] e]; simpl in *.
    rewrite IH, Hct.
    destruct (decide (Source.contentType s = k)) as [->|Hne].
    + rewrite lookup_insert_eq. split; [|intros _; left; eauto].
      intros _. right. left. done.
    + rewrite lookup_insert_ne by done. split; [tauto|].
      intros [?|[(? & _)|?]]; [tauto | done | tauto].
Qed.

(** The sources left in the state [bufferCreated] by the loop. *)
Lemma createBuffers_kept (sources : list Source.t) :
  wellBehaved createBuffer bufferCreated sources →
  ∀ types : gmap string Source.t,
    let kept := filter created (loop sources types).1.1 in
    NoDup (Source.contentType <$> kept)
    ∧ (∀ s', s' ∈ kept →
         types !! Source.contentType s' = None
         ∧ ∃ s, s ∈ sources ∧ usableFor (Source.contentType s') s
                ∧ s' = (createBuffer s).1)
    ∧ (∀ k, types !! k = None → Exists (usableFor k) sources →
            ∃ s', s' ∈ kept ∧ Source.contentType s' = k).
Proof.
  unfold wellBehaved.
  induction sources as [|s rest IH]; intros Hwell types; simpl.
  { split; [constructor|]. split; [intros s' Hin; by apply elem_of_nil in Hin|].
    intros k _ Hex. by apply Exists_nil in Hex. }
  apply Forall_cons in Hwell as [[Hct Hok Hko Hs] Hrest].
  specialize (IH Hrest).
  assert (Hdropped :
    ∀ s0, Source.state s0 ≠ bufferCreated →
          ¬ usableFor (Source.contentType s) s
          ∨ is_Some (types !! Source.contentType s) →
          let kept := filter created (s0 :: (loop rest types).1.1) in
          NoDup (Source.contentType <$> kept)
          ∧ (∀ s', s' ∈ kept →
               types !! Source.contentType s' = None
               ∧ ∃ s1, s1 ∈ s :: rest ∧ usableFor (Source.contentType s') s1
                       ∧ s' = (createBuffer s1).1)
          ∧ (∀ k, types !! k = None → Exists (usableFor k) (s :: rest) →
                  ∃ s', s' ∈ kept ∧ Source.contentType s' = k)).
  { intros s0 Hs0 Hwhy. cbv zeta.
    rewrite filter_cons_False by done.
    destruct (IH types) as (Hnd & Hsound & Hcomplete).
    split; [exact Hnd|]. split.
    - intros s' Hin. destruct (Hsound s' Hin) as (Hnone & s1 & Hs1 & Hu & ->).
      split; [exact Hnone|]. exists s1. by rewrite elem_of_cons; auto.
    - intros k Hk Hex. apply Exists_cons in Hex as [Hu|Hex]; [|by apply Hcomplete].
      exfalso. destruct Hwhy as [Hno|Hhas].
      + apply Hno. destruct Hu as (_ & Hp & Hc). by repeat split.
      + destruct Hu as (Hsame & _). rewrite Hsame, Hk in Hhas.
        by destruct Hhas. }
  destruct (String.eqb (canPlayType (Source.mseType s)) EmptyString) eqn:Hplay.
  { apply String.eqb_eq in Hplay.
    specialize (Hdropped s Hs). destruct (loop rest types) as [[r t] e].
    apply Hdropped. left. intros (_ & Hp & _). done. }
  apply String.eqb_neq in Hplay.
  case_bool_decide as Hhas.
  { specialize (Hdropped s Hs). destruct (loop rest types) as [[r t] e].
    apply Hdropped. by right. }
  destruct (createBuffer s) as [s' [err|]] eqn:Hcb; simpl in Hct, Hok, Hko.
  { assert (Hstate : Source.state s' ≠ bufferCreated) by (by apply Hko).
    specialize (Hdropped s' Hstate).
    destruct (loop rest types) as [[r t] e].
    apply Hdropped. left. intros (_ & _ & Hnone). rewrite Hcb in Hnone. done. }
  specialize (Hok eq_refl).
  assert (Hnone : types !! Source.contentType s = None).
  { destruct (types !! Source.contentType s) eqn:E; [|done].
    exfalso. apply Hhas. eauto. }
  destruct (IH (<[Source.contentType s' := s']> types))
    as (Hnd & Hsound & Hcomplete).
  clear Hdropped.
  destruct (loop rest (<[Source.contentType s' := s']> types))
    as [[r t] e].
  cbv beta iota zeta delta [fst snd] in *.
  rewrite filter_cons_True by done.
  split; [|split].
  - rewrite fmap_cons. constructor; [|exact Hnd].
    intros Hin. apply list_elem_of_fmap in Hin as (r0 & Heq & Hr0).
    destruct (Hsound r0 Hr0) as (Hfree & _).
    rewrite <- Heq, lookup_insert_eq in Hfree. done.
  - intros s0 Hin. apply elem_of_cons in Hin as [->|Hin].
    + split; [by rewrite Hct|].
      exists s. split; [by left|]. split; [|by rewrite Hcb].
      rewrite Hct. repeat split; [done | by rewrite Hcb].
    + destruct (Hsound s0 Hin) as (Hfree & s1 & Hs1 & Hu & ->).
      apply lookup_insert_None in Hfree as [Hfree _].
      split; [exact Hfree|]. exists s1. by rewrite elem_of_cons; auto.
  - intros k Hk Hex.
    destruct (decide (Source.contentType s = k)) as [<-|Hne].
    + exists s'. split; [by left | exact Hct].
    + apply Exists_cons in Hex as [(Hbad & _)|Hex]; [done|].
      destruct (Hcomplete k) as (s0 & Hs0 & Hk0); [|exact Hex|].
      * rewrite lookup_insert_ne; [exact Hk | by rewrite Hct].
      * exists s0. split; [by right | exact Hk0].
Qed.

End PreparingSources.

(** X15. Provided [createBuffer] leaves the content type of a source as it
    is, [sourcesPrepared] returns exactly when some source has content
    type "video", a type the video element can play, and a buffer that
    can be created. When it raises, it has emitted [noValidVideoSource]
    last, and has neither changed the controller's state, nor set the
    player's dimensions, nor asked for any initialisation file. *)
Theorem X15_sourcesPrepared_needs_a_video_source
    (canPlayType : string → string)
    (createBuffer : Source.t → Source.t * option error)
    (bufferCreated : Z) (sources : list Source.t)
    (c : PresentationController.t) :
  (∀ s, Source.contentType (createBuffer s).1 = Source.contentType s) →
  let r := Preparation.sourcesPrepared canPlayType createBuffer bufferCreated
             sources c in
  (Preparation.raised r = None
   ↔ Exists (Preparation.usable canPlayType createBuffer "video") sources)
  ∧ (Preparation.raised r ≠ None →
     Preparation.raised r = Some (Thrown Preparation.noVideoSource)
     ∧ Preparation.controller r = c
     ∧ Preparation.dimensions r = None
     ∧ Preparation.initFiles r = []
     ∧ last (Preparation.calls r) = Some (emit "noValidVideoSource")).
Proof.
  intros Hkeeps. cbv zeta. unfold Preparation.sourcesPrepared.
  pose proof (createBuffers_types canPlayType createBuffer sources Hkeeps
                ∅ "video") as Htypes.
  destruct (Preparation.createBuffers canPlayType createBuffer sources ∅)
    as [[sources1 types] e1]. simpl in Htypes.
  rewrite lookup_empty in Htypes.
  assert (Hvideo : is_Some (types !! "video"%string)
                   ↔ Exists (Preparation.usable canPlayType createBuffer "video")
                        sources).
  { rewrite Htypes. split; [intros [[? ?]|?]; done | by right]. }
  destruct (types !! "video"%string) as [videoSource|].
  - destruct (PresentationController.setState _ c) as [c' e2]. simpl.
    split; [|done]. split; [intros _; apply Hvideo; eauto | done].
  - simpl. split.
    + split; [done|]. intros Hex. apply Hvideo in Hex. by destruct Hex.
    + intros _. repeat split. apply last_snoc.
Qed.

Lemma X15_sourcesPrepared_needs_a_video_source_witness :
  Preparation.raised
    (Preparation.sourcesPrepared SamplePlatform.canPlayType
       SamplePlatform.createBuffer SamplePlatform.bufferCreated
       [SamplePlatform.webm; SamplePlatform.aac] Sample.controller)
  ≠ None.
Proof.
  destruct (X15_sourcesPrepared_needs_a_video_source
              SamplePlatform.canPlayType SamplePlatform.createBuffer
              SamplePlatform.bufferCreated
              [SamplePlatform.webm; SamplePlatform.aac] Sample.controller)
    as [_ Hraised].
  - intros s. unfold SamplePlatform.createBuffer.
    by destruct (String.eqb (Source.mseType s) "audio/ogg").
  - discriminate.
Defined.

(** X16. Provided [createBuffer] keeps content types and puts exactly the
    sources whose buffer it creates in the state [bufferCreated], and no
    source is in that state beforehand: when [sourcesPrepared] returns,
    the controller is in [sourceBuffersCreated], the sources it retains are
    those whose [loadInitFile] it called, they have pairwise distinct
    content types, each is a source that was usable for its content type,
    after its buffer was created, and every content type that had a usable
    source is the content type of a retained one. *)
Theorem X16_one_source_per_content_type
    (canPlayType : string → string)
    (createBuffer : Source.t → Source.t * option error)
    (bufferCreated : Z) (sources : list Source.t)
    (c : PresentationController.t) :
  Preparation.wellBehaved createBuffer bufferCreated sources →
  let r := Preparation.sourcesPrepared canPlayType createBuffer bufferCreated
             sources c in
  Preparation.raised r = None →
  PresentationController.current (Preparation.controller r)
  = PresentationController.sourceBuffersCreated
  ∧ Preparation.initFiles r = Preparation.sources r
  ∧ NoDup (Source.contentType <$> Preparation.sources r)
  ∧ (∀ s', s' ∈ Preparation.sources r →
       ∃ s, s ∈ sources
            ∧ Preparation.usable canPlayType createBuffer
                (Source.contentType s') s
            ∧ s' = (createBuffer s).1)
  ∧ (∀ k, Exists (Preparation.usable canPlayType createBuffer k) sources →
          ∃ s', s' ∈ Preparation.sources r ∧ Source.contentType s' = k).
Proof.
  intros Hwell. cbv zeta. unfold Preparation.sourcesPrepared.
  pose proof (createBuffers_kept canPlayType createBuffer bufferCreated
                sources Hwell ∅) as Hkept.
  destruct (Preparation.createBuffers canPlayType createBuffer sources ∅)
    as [[sources1 types] e1].
  cbv beta iota zeta delta [fst snd] in Hkept.
  destruct Hkept as (Hnd & Hsound & Hcomplete).
  destruct (types !! "video"%string) as [videoSource|]; [|discriminate].
  unfold PresentationController.setState.
  case_bool_decide as Hstate; simpl; intros _.
  - split; [exact Hstate|]. split; [reflexivity|]. split; [exact Hnd|].
    split; [intros s' Hin; by destruct (Hsound s' Hin)|].
    intros k Hex. apply Hcomplete; [apply lookup_empty | exact Hex].
  - split; [reflexivity|]. split; [reflexivity|]. split; [exact Hnd|].
    split; [intros s' Hin; by destruct (Hsound s' Hin)|].
    intros k Hex. apply Hcomplete; [apply lookup_empty | exact Hex].
Qed.

Lemma X16_one_source_per_content_type_witness :
  NoDup
    (Source.contentType
     <$> Preparation.sources
           (Preparation.sourcesPrepared SamplePlatform.canPlayType
              SamplePlatform.createBuffer SamplePlatform.bufferCreated
              SamplePlatform.sources Sample.controller)).
Proof.
  assert (Hwell : Preparation.wellBehaved SamplePlatform.createBuffer
                    SamplePlatform.bufferCreated SamplePlatform.sources).
  { repeat (apply Forall_cons_2 || apply Forall_nil_2);
      split; vm_compute; intuition congruence. }
  exact (proj1 (proj2 (proj2
    (X16_one_source_per_content_type SamplePlatform.canPlayType
       SamplePlatform.createBuffer SamplePlatform.bufferCreated
       SamplePlatform.sources Sample.controller Hwell eq_refl)))).
Defined.

(** ** The tick, for every controller state *)

Section TickProperties.

Import PresentationController Reload.


Lemma tick_requests m now sources v (c : t) :
  let r := tick m now sources v c in
  ManifestLoading.manifestRequests (calls r)
  = ManifestLoading.manifestRequests (reloadIfDue m now c).2
  ∧ loadingManifest (controller r) = loadingManifest (reloadIfDue m now c).1.
Proof.
  unfold tick.
  destruct (reloadIfDue m now c) as [c1 e1]; simpl.
  destruct (ltb _ _); simpl.
  { by rewrite manifestRequests_app, manifestRequests_downloads, Nat.add_0_r. }
  case_bool_decide; simpl; [|done].
  pose proof (setState_quiet bufferAvailable c1) as [Hq Hf].
  destruct (setState bufferAvailable c1) as [c2 e2]; simpl in Hq, Hf.
  destruct (Video.bufferedStart0 v); simpl;
    by rewrite manifestRequests_app, Hq, Nat.add_0_r, Hf.
Qed.

End TickProperties.

(** ** The tick and the windows of the sources *)

Section BufferingProperties.

Import ManifestLoading.

Lemma guarded_trans (c c1 c2 : PresentationController.t) (e1 e2 : list call) :
  guarded c c1 e1 → guarded c1 c2 e2 → guarded c c2 (e1 ++ e2).
Proof.
  unfold guarded. rewrite manifestRequests_app.
  intros [[H1 F1]|(F0 & H1 & F1)] [[H2 F2]|(G0 & H2 & G1)].
  - left. split; [lia | congruence].
  - right. repeat split; [congruence | lia | done].
  - right. repeat split; [done | lia | congruence].
  - congruence.
Qed.





Lemma downloadAll_guarded p v (active : list Buffering.source) :
  ∀ c, guarded c (Buffering.controller (Buffering.downloadAll p v active c))
         (Buffering.calls (Buffering.downloadAll p v active c)).
Proof.
  induction active as [|s rest IH]; intros c; simpl; [by left|].
  destruct (SegmentWindow.downloadNextSegment _ _ _ _) as [[[c1 w1] e1]|err]
    eqn:Hcall; simpl; [|by left].
  eapply guarded_trans; [|apply IH].
  by eapply downloadNextSegment_guarded.
Qed.


Lemma downloadAll_video p v (active : list Buffering.source) :
  ∀ c, Buffering.video (Buffering.downloadAll p v active c) = v.
Proof.
  induction active as [|s rest IH]; intros c; simpl; [done|].
  by destruct (SegmentWindow.downloadNextSegment _ _ _ _) as [[[c1 w1] e1]|err].
Qed.




Lemma tick_guarded_all now p (active : list Buffering.source) v c :
  guarded c (Buffering.controller (Buffering.tick now p active v c))
    (Buffering.calls (Buffering.tick now p active v c)).
Proof.
  unfold Buffering.tick.
  pose proof (reloadIfDue_guarded (SegmentWindow.manifest p) now c) as Hg.
  destruct (PresentationController.reloadIfDue _ now c) as [c1 e1];
    simpl in Hg.
  destruct (ltb _ _); simpl.
  { eapply guarded_trans; [exact Hg | apply downloadAll_guarded]. }
  case_bool_decide; simpl; [|exact Hg].
  pose proof (setState_quiet PresentationController.bufferAvailable c1)
    as [Hq Hf].
  destruct (PresentationController.setState _ c1) as [c2 e2];
    simpl in Hq, Hf.
  unfold guarded in *.
  destruct (Video.bufferedStart0 v); simpl;
    rewrite manifestRequests_app, Hq, Nat.add_0_r, Hf; exact Hg.
Qed.


(** Where the lookahead has reached the threshold no window is called,
    and the tick is the one of [PresentationController.tick]. *)
Lemma tick_without_downloads now p (active : list Buffering.source)
    (names : list nat) v c :
  ltb (PresentationController.remaining v)
      (PresentationController.minBuffer (SegmentWindow.manifest p)) = false →
  let r := Buffering.tick now p active v c in
  let r0 := PresentationController.tick (SegmentWindow.manifest p) now names v c in
  Buffering.controller r = PresentationController.controller r0
  ∧ Buffering.video r = PresentationController.video r0
  ∧ Buffering.calls r = PresentationController.calls r0
  ∧ Buffering.raised r = PresentationController.raised r0
  ∧ Buffering.sources r = active.
Proof.
  intros Hlow. cbv zeta.
  unfold Buffering.tick, PresentationController.tick. rewrite Hlow.
  destruct (PresentationController.reloadIfDue _ now c) as [c1 e1].
  case_bool_decide; [|done].
  destruct (PresentationController.setState _ c1) as [c2 e2].
  by destruct (Video.bufferedStart0 v).
Qed.

(** A tick, with the windows it advances, keeps at most one manifest load
    in flight. *)
Lemma tick_oneLoad now p (active : list Buffering.source) v c (n : nat) :
  oneLoad (ManifestLoading.mk c n) →
  oneLoad (ManifestLoading.mk
             (Buffering.controller (Buffering.tick now p active v c))
             (n + manifestRequests
                    (Buffering.calls (Buffering.tick now p active v c)))).
Proof.
  intros Hone. eapply guarded_oneLoad; [exact Hone|].
  apply tick_guarded_all.
Qed.

End BufferingProperties.




(** Two ticks with the lookahead low, the reload not due and no load in
    flight. Over a window whose only segment is downloaded the tick asks
    for the manifest; over a window updated statically over a range
    without segments it raises. *)
Example tick_over_drained_and_empty_windows :
  let r := Buffering.tick 0 Sample.live
             [Buffering.mkSource Sample.environment Sample.drained]
             (Video.mk 0 [] true) Sample.controller in
  let r' := Buffering.tick 0 (Sample.static 60)
              [Buffering.mkSource Sample.environment
                 (SegmentWindow.mk [] None (Some 0%nat) None)]
              (Video.mk 0 [] true) Sample.controller in
  Buffering.calls r
  = [consoleWarn SegmentWindow.queueRunEmpty; getMPD "manifest.mpd"]
  ∧ PresentationController.loadingManifest (Buffering.controller r) = true
  ∧ SegmentWindow.updateStatic (Sample.source None []) (Sample.static 60)
      SegmentWindow.new
    = Returns (SegmentWindow.mk [] None (Some 0%nat) None)
  ∧ Buffering.raised r' = Some TypeError.
Proof. vm_compute. repeat split. Qed.

(** ** The lifecycle of the controller *)

Lemma sourceInitialised_all (initialised : Z) (sources : list Source.t)
    (c : PresentationController.t) :
  Forall (λ s, Source.state s = initialised) sources →
  Preparation.sourceInitialised initialised sources c
  = ((PresentationController.setState
        PresentationController.sourcesInitialised c).1,
     (PresentationController.setState
        PresentationController.sourcesInitialised c).2, true).
Proof.
  intros Hall. unfold Preparation.sourceInitialised.
  assert (Hevery : forallb (λ s, bool_decide (Source.state s = initialised))
                     sources = true).
  { apply forallb_forall. intros s Hin. apply bool_decide_eq_true.
    rewrite Forall_forall in Hall. apply Hall. by apply list_elem_of_In. }
  rewrite Hevery.
  by destruct (PresentationController.setState _ c).
Qed.

(** X20. From a new controller, the delivery of the first manifest, a
    returning [sourcesPrepared], a [sourceInitialised] that finds every
    source initialised, and a tick that finds the first buffered range
    reaching twice [minBufferTime] past the playback position lead through
    [firstMPDLoaded], [sourceBuffersCreated] and [sourcesInitialised] to
    [bufferAvailable]: the tick interval has been started, and the video
    plays from the start of the buffered range. *)
Theorem X20_lifecycle_reaches_bufferAvailable
    (u : string) (now later : Q) (m : Manifest.t)
    (canPlayType : string → string)
    (createBuffer : Source.t → Source.t * option error)
    (bufferCreated initialised : Z)
    (sources loaded : list Source.t) (ids : list nat)
    (v : Video.t) (s e : Q) (rest : list (Q * Q)) :
  let c1 := (PresentationController.loadedManifest now
               (PresentationController.new u)).1 in
  let r := Preparation.sourcesPrepared canPlayType createBuffer bufferCreated
             sources c1 in
  let i := Preparation.sourceInitialised initialised loaded
             (Preparation.controller r) in
  let t := PresentationController.tick m later ids v i.1.1 in
  Preparation.raised r = None →
  Forall (λ s, Source.state s = initialised) loaded →
  Video.buffered v = (s, e) :: rest →
  (PresentationController.minBuffer m <= e - Video.currentTime v)%Q →
  PresentationController.current c1 = PresentationController.firstMPDLoaded
  ∧ PresentationController.current (Preparation.controller r)
    = PresentationController.sourceBuffersCreated
  ∧ PresentationController.current i.1.1
    = PresentationController.sourcesInitialised
  ∧ i.2 = true
  ∧ PresentationController.current (PresentationController.controller t)
    = PresentationController.bufferAvailable
  ∧ PresentationController.video t = Video.play (Video.setCurrentTime s v)
  ∧ PresentationController.raised t = None.
Proof.
  cbv zeta. intros Hprepared Hloaded Hbuffered Henough.
  split; [reflexivity|].
  assert (Hcreated :
    PresentationController.current
      (Preparation.controller
         (Preparation.sourcesPrepared canPlayType createBuffer bufferCreated
            sources
            (PresentationController.loadedManifest now
               (PresentationController.new u)).1))
    = PresentationController.sourceBuffersCreated).
  { revert Hprepared. unfold Preparation.sourcesPrepared.
    destruct (Preparation.createBuffers canPlayType createBuffer sources ∅)
      as [[sources1 types] e1].
    destruct (types !! "video"%string); [|discriminate].
    reflexivity. }
  split; [exact Hcreated|].
  clear Hprepared. revert Hcreated.
  generalize (Preparation.controller
                (Preparation.sourcesPrepared canPlayType createBuffer
                   bufferCreated sources
                   (PresentationController.loadedManifest now
                      (PresentationController.new u)).1)).
  intros c2 Hcreated.
  rewrite (sourceInitialised_all _ _ _ Hloaded). cbn [fst snd].
  set (c3 := (PresentationController.setState
                PresentationController.sourcesInitialised c2).1).
  assert (Hc3 : PresentationController.current c3
                = PresentationController.sourcesInitialised).
  { subst c3. unfold PresentationController.setState.
    rewrite bool_decide_eq_false_2 by (rewrite Hcreated; discriminate).
    reflexivity. }
  split; [exact Hc3|]. split; [reflexivity|].
  destruct (tick_sourcesInitialised m later ids v c3 Hc3)
    as (Hiff & _ & Hplay).
  split.
  - apply Hiff. unfold PresentationController.remaining.
    by rewrite Hbuffered.
  - by apply (Hplay s e rest).
Qed.

Lemma X20_lifecycle_reaches_bufferAvailable_witness :
  PresentationController.current
    (PresentationController.controller
       (PresentationController.tick (Sample.manifest None None) 1 [0%nat]
          (Video.mk 0 [(0, 60)%Q] true)
          (Preparation.sourceInitialised SamplePlatform.initialised
             [Source.mk "video/mp4" "video" SamplePlatform.initialised 640 360]
             (Preparation.controller
                (Preparation.sourcesPrepared SamplePlatform.canPlayType
                   SamplePlatform.createBuffer SamplePlatform.bufferCreated
                   SamplePlatform.sources
                   (PresentationController.loadedManifest 0
                      (PresentationController.new "manifest.mpd")).1))).1.1))
  = PresentationController.bufferAvailable.
Proof.
  refine (proj1 (proj2 (proj2 (proj2 (proj2
    (X20_lifecycle_reaches_bufferAvailable "manifest.mpd" 0 1
       (Sample.manifest None None)
       SamplePlatform.canPlayType SamplePlatform.createBuffer
       SamplePlatform.bufferCreated SamplePlatform.initialised
       SamplePlatform.sources
       [Source.mk "video/mp4" "video" SamplePlatform.initialised 640 360]
       [0%nat] (Video.mk 0 [(0, 60)%Q] true) 0 60 [] eq_refl _ eq_refl _)))))).
  - by repeat constructor.
  - by vm_compute.
Defined.

(** ** The counter of AdaptationSet indices *)

Section CounterProperties.

Import AdaptationSet.

Lemma setupAll_length (inputs : list input) :
  ∀ c, length (setupAll inputs c).1 = length inputs.
Proof.
  induction inputs as [|i rest IH]; intros c; [reflexivity|].
  rewrite setupAll_cons. simpl. by rewrite IH.
Qed.

Lemma setupAll_counter (inputs : list input) :
  ∀ c, default 0 (setupAll inputs c).2
       = default 0 c + Z.of_nat (length inputs).
Proof.
  induction inputs as [|i rest IH]; intros c; simpl length.
  - simpl. lia.
  - rewrite setupAll_cons. cbn [snd]. rewrite IH, setup_counter. simpl. lia.
Qed.

Lemma setupAll_nth (inputs : list input) :
  ∀ c (k : nat) (a : t),
    (setupAll inputs c).1 !! k = Some (Returns a) →
    index a = default 0 c + 1 + Z.of_nat k.
Proof.
  induction inputs as [|i rest IH]; intros c k a.
  { simpl. by rewrite lookup_nil. }
  rewrite setupAll_cons. cbn [fst]. rewrite lookup_cons.
  destruct k as [|k].
  - intros [= Ha]. apply setup_index in Ha. lia.
  - intros Hk. apply IH in Hk. rewrite setup_counter in Hk. simpl in Hk. lia.
Qed.

End CounterProperties.

Section NodeCounterProperties.

Import AdaptationSetNode.

Lemma node_setup_unparsed (n : t) (c : AdaptationSet.counter) e :
  attrs n = Throws e → setup n c = (Throws e, c).
Proof. unfold setup. by intros ->. Qed.

Lemma node_setup_counter (n : t) (c : AdaptationSet.counter) :
  (setup n c).2
  = if parsed n then Some (default 0 c + 1) else c.
Proof. unfold setup, parsed. by destruct (attrs n). Qed.

Lemma node_setup_index (n : t) (c : AdaptationSet.counter)
    (a : AdaptationSet.t) :
  (setup n c).1 = Returns a →
  parsed n = true ∧ AdaptationSet.index a = default 0 c + 1.
Proof.
  unfold setup, parsed.
  destruct (attrs n) as [m|]; simpl; [|discriminate].
  destruct (children n) as [[tpl reps]|]; simpl; [|discriminate].
  destruct (AdaptationSet.resolveMimeType m reps); simpl; [|discriminate].
  by intros [= <-].
Qed.

Lemma node_setupAll_cons (n : t) (rest : list t) (c : AdaptationSet.counter) :
  setupAll (n :: rest) c
  = ((setup n c).1 :: (setupAll rest (setup n c).2).1,
     (setupAll rest (setup n c).2).2).
Proof.
  simpl. destruct (setup n c) as [r c1]. simpl.
  by destruct (setupAll rest c1).
Qed.

Lemma node_setupAll_length (nodes : list t) :
  ∀ c, length (setupAll nodes c).1 = length nodes.
Proof.
  induction nodes as [|n rest IH]; intros c; [reflexivity|].
  rewrite node_setupAll_cons. simpl. by rewrite IH.
Qed.

Lemma node_setupAll_counter (nodes : list t) :
  ∀ c, default 0 (setupAll nodes c).2 = default 0 c + indexed nodes.
Proof.
  induction nodes as [|n rest IH]; intros c.
  - simpl. lia.
  - rewrite node_setupAll_cons. cbn [snd]. rewrite IH, node_setup_counter.
    cbn [indexed]. destruct (parsed n); simpl; lia.
Qed.

Lemma node_setupAll_nth (nodes : list t) :
  ∀ c (k : nat) (a : AdaptationSet.t),
    (setupAll nodes c).1 !! k = Some (Returns a) →
    AdaptationSet.index a = default 0 c + indexed (take k nodes) + 1.
Proof.
  induction nodes as [|n rest IH]; intros c k a.
  { simpl. by rewrite lookup_nil. }
  rewrite node_setupAll_cons. cbn [fst]. rewrite lookup_cons.
  destruct k as [|k].
  - intros [= Ha]. apply node_setup_index in Ha as [_ ->]. simpl. lia.
  - intros Hk. apply IH in Hk. rewrite node_setup_counter in Hk.
    cbn [take indexed]. destruct (parsed n); simpl in Hk; lia.
Qed.

Lemma indexed_nonneg (nodes : list t) : 0 <= indexed nodes.
Proof. induction nodes as [|n rest IH]; simpl; [lia|]. destruct (parsed n); lia. Qed.

Lemma node_setupAll_sorted (nodes : list t) :
  ∀ c : AdaptationSet.counter,
    Forall (λ k, default 0 c < k) (AdaptationSet.indices (setupAll nodes c).1)
    ∧ StronglySorted Z.lt (AdaptationSet.indices (setupAll nodes c).1).
Proof.
  induction nodes as [|n rest IH]; intros c.
  - split; constructor.
  - rewrite node_setupAll_cons. cbn [fst].
    destruct (IH (setup n c).2) as [Hlow Hsorted].
    set (c1 := (setup n c).2) in *.
    assert (Hc1 : default 0 c1
                  = default 0 c + (if parsed n then 1 else 0)).
    { subst c1. rewrite node_setup_counter. destruct (parsed n); simpl; lia. }
    assert (Hweak : Forall (λ k, default 0 c < k)
                      (AdaptationSet.indices (setupAll rest c1).1)).
    { eapply Forall_impl; [exact Hlow|]. intros k Hk; simpl in Hk.
      destruct (parsed n); lia. }
    destruct (setup n c).1 as [a|e] eqn:Ha; cbn [AdaptationSet.indices].
    + apply node_setup_index in Ha as [Hparsed Ha].
      rewrite Hparsed in Hc1.
      split.
      * constructor; [lia | exact Hweak].
      * constructor; [exact Hsorted|].
        eapply Forall_impl; [exact Hlow|]. intros k Hk; simpl in Hk. lia.
    + by split.
Qed.

Lemma node_setup_ofInput (i : AdaptationSet.input) (c : AdaptationSet.counter) :
  setup (ofInput i) c = AdaptationSet.setup i c.
Proof. reflexivity. Qed.

Lemma node_setupAll_ofInput (inputs : list AdaptationSet.input) :
  ∀ c, setupAll (map ofInput inputs) c = AdaptationSet.setupAll inputs c.
Proof.
  induction inputs as [|i rest IH]; intros c; [reflexivity|].
  cbn [map]. rewrite node_setupAll_cons, setupAll_cons, node_setup_ofInput.
  by rewrite IH.
Qed.

End NodeCounterProperties.

(** X21. Constructing AdaptationSets one after the other from document
    nodes. A construction whose attributes fail to parse raises before the
    index is taken and leaves the counter as it is; every other
    construction takes the next index, also when it raises later on (in
    the construction of a child, or in the fallback for [mimeType]). So
    the AdaptationSet constructed at place [k] (from 0) has the index one
    past the counter's start plus the number of earlier nodes whose
    attributes parsed; the counter ends advanced by the number of nodes
    whose attributes parsed; and the indices of the constructed
    AdaptationSets are strictly increasing. For nodes whose attributes
    parse and whose children construct this is [AdaptationSet.setupAll]. *)
Theorem X21_index_is_position_in_construction_order
    (nodes : list AdaptationSetNode.t) (c : AdaptationSet.counter) :
  length (AdaptationSetNode.setupAll nodes c).1 = length nodes
  ∧ default 0 (AdaptationSetNode.setupAll nodes c).2
    = default 0 c + AdaptationSetNode.indexed nodes
  ∧ (∀ (k : nat) (a : AdaptationSet.t),
       (AdaptationSetNode.setupAll nodes c).1 !! k = Some (Returns a) →
       AdaptationSet.index a
       = default 0 c + AdaptationSetNode.indexed (take k nodes) + 1)
  ∧ (∀ n e, AdaptationSetNode.attrs n = Throws e →
            AdaptationSetNode.setup n c = (Throws e, c))
  ∧ (∀ n, AdaptationSetNode.parsed n = true →
          (AdaptationSetNode.setup n c).2 = Some (default 0 c + 1))
  ∧ StronglySorted Z.lt
      (AdaptationSet.indices (AdaptationSetNode.setupAll nodes c).1)
  ∧ (∀ inputs,
       AdaptationSetNode.setupAll (map AdaptationSetNode.ofInput inputs) c
       = AdaptationSet.setupAll inputs c).
Proof.
  split; [apply node_setupAll_length|].
  split; [apply node_setupAll_counter|].
  split; [apply node_setupAll_nth|].
  split; [intros n e; apply node_setup_unparsed|].
  split; [intros n Hn; by rewrite node_setup_counter, Hn|].
  split; [apply node_setupAll_sorted|].
  intros inputs. apply node_setupAll_ofInput.
Qed.

(** Three nodes, the counter at 4: the attributes of the second do not
    parse, the third has neither [mimeType] nor Representation. The first
    gets the index 5, the second none, the third takes 6 and raises; the
    counter ends at 6. *)
Example setupAll_with_unparsed_node :
  AdaptationSetNode.setupAll
    [AdaptationSetNode.mk (Returns (Some "video/mp4"%string)) (Returns (None, []));
     AdaptationSetNode.mk (Throws (Thrown "maxWidth")) (Returns (None, []));
     AdaptationSetNode.mk (Returns None) (Returns (None, []))]
    (Some 4)
  = ([Returns (AdaptationSet.mk 5 (Some "video/mp4"%string) None []);
      Throws (Thrown "maxWidth");
      Throws TypeError],
     Some 6).
Proof. reflexivity. Qed.

(** ** Successive dynamic updates *)

Lemma merge_throws (new : list Segment.t) (w : SegmentWindow.t) :
  throws (SegmentWindow.merge new w)
  ↔ ∃ lastSegment s,
      last (SegmentWindow.segments w) = Some lastSegment
      ∧ new = [s] ∧ Segment.equal lastSegment s = true.
Proof.
  unfold SegmentWindow.merge.
  destruct new as [|first rest].
  { simpl. split; [done | by intros (? & ? & _ & ? & _)]. }
  destruct (last (SegmentWindow.segments w)) as [lastSegment|] eqn:Hlast;
    simpl.
  - destruct (Segment.equal lastSegment first) eqn:Heq.
    + destruct rest as [|second rest']; simpl.
      * split; [intros _; by exists lastSegment, first | done].
      * destruct (last_cons_is_Some second rest') as [lastAdded Hl].
        rewrite Hl. simpl. split; [done|].
        by intros (? & ? & _ & ? & _).
    + destruct (last_cons_is_Some first rest) as [lastAdded Hl].
      simpl. rewrite Hl. simpl. split; [done|].
      intros (l & s & [= <-] & [= <- _] & Hs). congruence.
  - destruct (last_cons_is_Some first rest) as [lastAdded Hl].
    rewrite Hl. simpl. split; [done|]. by intros (? & ? & ? & _).
Qed.

(** X22. A dynamic update raises in two cases only, and with a
    [TypeError] in both: no start of the range can be chosen (the first
    update finds no edge segment), or segments are queued and the range
    holds a single segment that is value-equal to the last queued one. *)
Theorem X22_update_raises_in_two_cases
    (src : SegmentWindow.source) (p : SegmentWindow.presentation)
    (w : SegmentWindow.t) :
  (throws (SegmentWindow.updateDynamic src p w)
   ↔ throws (SegmentWindow.rangeStart src p w)
     ∨ ∃ from lastSegment s,
         SegmentWindow.rangeStart src p w = Returns from
         ∧ last (SegmentWindow.segments w) = Some lastSegment
         ∧ SegmentWindow.segmentsInRange src from
             (Num (SegmentWindow.liveEdge p)) = [s]
         ∧ Segment.equal lastSegment s = true)
  ∧ (throws (SegmentWindow.updateDynamic src p w) →
     SegmentWindow.updateDynamic src p w = Throws TypeError).
Proof.
  unfold SegmentWindow.updateDynamic.
  destruct (SegmentWindow.rangeStart src p w) as [from|err] eqn:Hfrom; simpl.
  - pose proof (merge_throws
                  (SegmentWindow.segmentsInRange src from
                     (Num (SegmentWindow.liveEdge p))) w) as Hmerge.
    split.
    + rewrite Hmerge. split.
      * intros (l & s & Hl & Hs & Heq). right. by exists from, l, s.
      * intros [[]|(from' & l & s & [= <-] & Hl & Hs & Heq)]. by exists l, s.
    + intros Hthrows. apply Hmerge in Hthrows as (l & s & Hl & -> & Heq).
      unfold SegmentWindow.merge. rewrite Hl. simpl. by rewrite Heq.
  - split; [split; [by left | done]|]. intros _.
    revert Hfrom. unfold SegmentWindow.rangeStart.
    destruct (SegmentWindow.nextRangeStart w); [discriminate|].
    destruct (SegmentWindow.segmentAt src _); [discriminate|]. simpl.
    unfold SegmentWindow.fallbackEdgeSegment.
    destruct (SegmentWindow.contentAt src _) as [content|]; simpl;
      [|by intros [= <-]].
    destruct (SegmentWindow.repeatSegment content).
    + destruct (SegmentWindow.contentSegmentAt content _); simpl;
        [discriminate | by intros [= <-]].
    + destruct (last (SegmentWindow.contentSegments content)); simpl;
        [discriminate | by intros [= <-]].
Qed.

(** X23. After a dynamic update that changed the window, segments are
    queued and every later choice of a range start, whatever the source,
    the live edge and the manifest then are, returns the end of the last
    queued segment: the next range starts where the queue ends. *)
Theorem X23_next_range_starts_at_queue_end
    (src : SegmentWindow.source) (p : SegmentWindow.presentation)
    (w w' : SegmentWindow.t) (msgs : list call) :
  SegmentWindow.updateDynamic src p w = Returns (w', msgs) →
  w' ≠ w →
  ∃ lastQueued,
    last (SegmentWindow.segments w') = Some lastQueued
    ∧ ∀ src' p',
        SegmentWindow.rangeStart src' p' w'
        = Returns (Num (Segment.end_ lastQueued)).
Proof.
  intros Hupdate Hchanged.
  apply rangeStart_returns_merge in Hupdate as (from & _ & Hmerge).
  apply merge_returns in Hmerge.
  destruct (last (LiveWindow.appended w _)) as [lastAdded|] eqn:Hlast.
  - destruct Hmerge as [-> _]. exists lastAdded. simpl.
    split; [by rewrite last_app, Hlast|].
    intros src' p'. reflexivity.
  - by destruct Hmerge as (_ & -> & _).
Qed.

Lemma X23_next_range_starts_at_queue_end_witness :
  ∃ lastQueued,
    last (SegmentWindow.segments Sample.queued) = Some lastQueued
    ∧ SegmentWindow.rangeStart (Sample.source None []) Sample.live Sample.queued
      = Returns (Num (Segment.end_ lastQueued)).
Proof.
  destruct (X23_next_range_starts_at_queue_end Sample.liveSource Sample.live
              SegmentWindow.new Sample.queued [] eq_refl)
    as (lastQueued & Hlast & Hnext).
  - discriminate.
  - exists lastQueued. split; [exact Hlast | apply Hnext].
Defined.
